(** * tethys store: a shallow embedding of the class [Store]

    The development follows the class [Store] (in the sources it is the
    second part of [examples/counter/counter.component.ts]), [utils.ts]
    ([findAndCreateStoreMetadata]) and the declarations of [types.ts]
    ([META_KEY], [StoreOptions]).

    Conventions of the embedding:
    - a JavaScript number is an integer of [Z], or one of the three
      non-finite numbers; fractions are not represented;
    - an object is an identity (the location the runtime allocated it at)
      together with its own enumerable properties, in insertion order;
      the store never mutates an object in place, so the properties are
      carried with the identity instead of living in a heap;
    - values are [undefined], [null], booleans, numbers, strings,
      functions, arrays and plain objects; there is no BigInt, no Symbol
      and no cyclic value; a string is its sequence of characters (one
      per code unit for ASCII text), and the properties of an object are
      kept in creation order (the language lists integer-like keys
      first): the properties below are stated by lookup;
    - a method that can throw returns a [Completion];
    - an [Observable] is the trace one subscriber sees: the values
      delivered, and how (or whether) the stream ends. *)

From Stdlib Require Import ZArith List Bool Lia Ascii String.
From stdpp Require Import base gmap strings pretty.

Open Scope string_scope.
Open Scope Z_scope.

(** ** JavaScript values *)

Definition loc : Set := N.
Bind Scope N_scope with loc.

Inductive Number : Type :=
| Finite (z : Z)
| NaN
| PosInfinity
| NegInfinity.

#[local] Unset Elimination Schemes.
Inductive Value : Type :=
| VUndefined
| VNull
| VBool (b : bool)
| VNum (n : Number)
| VStr (s : string)
| VFun (l : loc)
| VArr (l : loc) (elems : list Value)
| VObj (l : loc) (props : list (string * Value)).
#[local] Set Elimination Schemes.

(** *** Own properties

    An object's own enumerable string keys ([[OwnPropertyKeys]]) and the
    value read at a key ([[Get]]).  Reading finds the first entry of the
    key; writing replaces that entry where it stands, or appends a new
    one, as property creation order has it. *)

Fixpoint assoc_get {A : Type} (ps : list (string * A)) (k : string) : option A :=
  match ps with
  | [] => None
  | (k', v) :: ps' => if String.eqb k' k then Some v else assoc_get ps' k
  end.

Fixpoint assoc_set {A : Type} (k : string) (v : A) (ps : list (string * A))
    : list (string * A) :=
  match ps with
  | [] => [(k, v)]
  | (k', v') :: ps' =>
      if String.eqb k' k then (k, v) :: ps' else (k', v') :: assoc_set k v ps'
  end.

Fixpoint indexed {A : Type} (i : nat) (xs : list A) : list (string * A) :=
  match xs with
  | [] => []
  | x :: xs' => (pretty i, x) :: indexed (S i) xs'
  end.

Fixpoint chars (s : string) : list Value :=
  match s with
  | EmptyString => []
  | String c s' => VStr (String c EmptyString) :: chars s'
  end.

(** The own enumerable properties a spread [...v] copies: the
    properties of an object, the elements of an array under their
    indices, the characters of a string; nothing for [undefined], [null],
    booleans, numbers and functions. *)
Definition own_props (v : Value) : list (string * Value) :=
  match v with
  | VObj _ ps => ps
  | VArr _ es => indexed 0 es
  | VStr s => indexed 0 (chars s)
  | _ => []
  end.

Definition own_keys (v : Value) : list string := map fst (own_props v).

Definition get (v : Value) (k : string) : option Value :=
  assoc_get (own_props v) k.

(** [CopyDataProperties(target, src)]: for each own key of [src] in
    order, read it and define it on [target]. *)
Definition copy_step (src : Value) (acc : list (string * Value)) (k : string)
    : list (string * Value) :=
  match get src k with
  | Some v => assoc_set k v acc
  | None => acc
  end.

Definition copy_props (target : list (string * Value)) (src : Value)
    : list (string * Value) :=
  fold_left (copy_step src) (own_keys src) target.

(** The object literal [{ ...a, ...b }], allocated at [l]. *)
Definition spread2 (l : loc) (a b : Value) : Value :=
  VObj l (copy_props (copy_props [] a) b).

(** *** Equality *)

(** [a === b]: primitives by value ([NaN] differs from itself), objects,
    arrays and functions by identity. *)
Definition strict_equals (a b : Value) : bool :=
  match a, b with
  | VUndefined, VUndefined => true
  | VNull, VNull => true
  | VBool x, VBool y => Bool.eqb x y
  | VNum (Finite x), VNum (Finite y) => x =? y
  | VNum PosInfinity, VNum PosInfinity => true
  | VNum NegInfinity, VNum NegInfinity => true
  | VStr x, VStr y => String.eqb x y
  | VFun x, VFun y => (x =? y)%N
  | VArr x _, VArr y _ => (x =? y)%N
  | VObj x _, VObj y _ => (x =? y)%N
  | _, _ => false
  end.

Section All2.
Context {A B : Type} (f : A -> B -> bool).

(** [f] holds of the two lists element by element, and they have the
    same length. *)
Fixpoint all2 (xs : list A) (ys : list B) : bool :=
  match xs, ys with
  | [], [] => true
  | x :: xs', y :: ys' => f x y && all2 xs' ys'
  | _, _ => false
  end.
End All2.

(** Deep (structural) equality, as test frameworks understand
    "deep-equal": identities are ignored, arrays are compared element by
    element, objects key by key whatever the order of the keys.  It is a
    notion of the specification, not a function of the store. *)
Fixpoint deep_equal (a b : Value) {struct a} : bool :=
  match a, b with
  | VUndefined, VUndefined => true
  | VNull, VNull => true
  | VBool x, VBool y => Bool.eqb x y
  | VNum (Finite x), VNum (Finite y) => x =? y
  | VNum NaN, VNum NaN => true
  | VNum PosInfinity, VNum PosInfinity => true
  | VNum NegInfinity, VNum NegInfinity => true
  | VStr x, VStr y => String.eqb x y
  | VFun x, VFun y => (x =? y)%N
  | VArr _ xs, VArr _ ys => all2 deep_equal xs ys
  | VObj _ ps, VObj _ qs =>
      (length ps =? length qs)%nat &&
      forallb (fun kx => match assoc_get qs (fst kx) with
                         | Some y => deep_equal (snd kx) y
                         | None => false
                         end) ps
  | _, _ => false
  end.

(** *** JSON

    [JSON.stringify] produces the text of a JSON document and
    [JSON.parse] reads it back; the text is kept as its syntax tree. *)

#[local] Unset Elimination Schemes.
Inductive Json : Type :=
| JNull
| JBool (b : bool)
| JNum (z : Z)
| JStr (s : string)
| JArr (elems : list Json)
| JObj (members : list (string * Json)).
#[local] Set Elimination Schemes.

(** The replacer of [cloneInitialState]. *)
Definition replacer (key : string) (value : Value) : Value :=
  match value with
  | VUndefined => VNull
  | _ => value
  end.

(** [SerializeJSONProperty] under that replacer.  The replacer is called
    on every property value before it is serialized and changes
    [undefined] only, hence the first case.  [None] is the "undefined"
    result of a value JSON cannot hold (a function): such a property is
    left out of an object, and written [null] in an array.  Non-finite
    numbers are written [null]. *)
Fixpoint serialize (value : Value) : option Json :=
  match value with
  | VUndefined => Some JNull
  | VNull => Some JNull
  | VBool b => Some (JBool b)
  | VNum (Finite z) => Some (JNum z)
  | VNum _ => Some JNull
  | VStr s => Some (JStr s)
  | VFun _ => None
  | VArr _ es => Some (JArr (map (fun e => default JNull (serialize e)) es))
  | VObj _ ps =>
      Some (JObj (flat_map (fun kv => match serialize (snd kv) with
                                      | Some j => [(fst kv, j)]
                                      | None => []
                                      end) ps))
  end.

Section ParseLists.
Context (parse : Json -> loc -> Value * loc).

(** The elements of an array, from left to right. *)
Fixpoint parse_elements (js : list Json) (l : loc) : list Value * loc :=
  match js with
  | [] => ([], l)
  | j :: js' =>
      let '(e, l1) := parse j l in
      let '(es, l2) := parse_elements js' l1 in
      (e :: es, l2)
  end.

(** The members of an object, each defined on the object built so
    far. *)
Fixpoint parse_members (ms : list (string * Json)) (acc : list (string * Value))
    (l : loc) : list (string * Value) * loc :=
  match ms with
  | [] => (acc, l)
  | m :: ms' =>
      let '(v, l1) := parse (snd m) l in
      parse_members ms' (assoc_set (fst m) v acc) l1
  end.
End ParseLists.

(** [JSON.parse] of a document: every array and object is a new one,
    allocated from [l] on; the answer carries the next free location. *)
Fixpoint parse (j : Json) (l : loc) : Value * loc :=
  match j with
  | JNull => (VNull, l)
  | JBool b => (VBool b, l)
  | JNum z => (VNum (Finite z), l)
  | JStr s => (VStr s, l)
  | JArr js =>
      let '(es, l') := parse_elements parse js (l + 1)%N in
      (VArr l es, l')
  | JObj ms =>
      let '(ps, l') := parse_members parse ms [] (l + 1)%N in
      (VObj l ps, l')
  end.

(** ** Errors and completions *)

Inductive JsError : Type :=
| Error (message : string)
| TypeError (message : string)
| SyntaxError (message : string).

Inductive Completion (A : Type) : Type :=
| Return (a : A)
| Throw (e : JsError).
Arguments Return {A} a.
Arguments Throw {A} e.

(** ** [types.ts] *)

Definition META_KEY : string := "__THY_META__".

Record StoreOptions : Type := {
  opt_name : option string;
  instanceMaxCount : option Z
}.

(** ** The runtime the store lives in

    [instances] is the table of [InternalStoreFactory.instance]: the ids
    of the stores that are registered and not yet unregistered.
    [devMode] is what Angular's [isDevMode()] answers, and [next_loc] the
    location the next allocated object gets. *)

Record Runtime : Type := {
  instances : gset string;
  devMode : bool;
  next_loc : loc
}.

(** Modelled from the spec: [InternalStoreFactory] is not part of the
    sources.  Its [get(id)] answers the registered store of that id or
    nothing; [register] and [unregister] add and remove the id of the
    store ("registry membership changes are visible immediately to
    subsequent get/register calls").  Only the truthiness of [get] is
    used by the store. *)
Definition factory_get (rt : Runtime) (id : string) : bool :=
  bool_decide (id ∈ instances rt).

Definition factory_register (id : string) (rt : Runtime) : Runtime :=
  {| instances := {[ id ]} ∪ instances rt;
     devMode := devMode rt;
     next_loc := next_loc rt |}.

Definition factory_unregister (id : string) (rt : Runtime) : Runtime :=
  {| instances := instances rt ∖ {[ id ]};
     devMode := devMode rt;
     next_loc := next_loc rt |}.

(** ** Id allocation: [getInstanceMaxCount], [createStoreInstanceId] *)

Definition MAX_SAFE_INTEGER : Z := 9007199254740991.

(** [this.storeOptions && this.storeOptions.instanceMaxCount], then
    [isNumber].  A configured [instanceMaxCount] is taken to be an
    integer. *)
Definition getInstanceMaxCount (options : option StoreOptions) : Z :=
  match options with
  | Some o =>
      match instanceMaxCount o with
      | Some n => if n <=? 0 then MAX_SAFE_INTEGER else n
      | None => 20
      end
  | None => 20
  end.

(** The template literal [`${name}-${i}`]. *)
Definition suffixed (name : string) (i : Z) : string :=
  name +:+ "-" +:+ pretty i.

(** [scan n p i] runs the body of a [for] loop at [i], [i+1], ...,
    [i+n-1] and stops at the first index where the test [p] holds (the
    [break]).  The recursion is on the binary digits of the number of
    iterations, so that a bound as large as [MAX_SAFE_INTEGER] still
    evaluates. *)
Fixpoint scan (n : positive) (p : Z -> bool) (i : Z) : option Z :=
  match n with
  | xH => if p i then Some i else None
  | xO m =>
      match scan m p i with
      | Some k => Some k
      | None => scan m p (i + Z.pos m)
      end
  | xI m =>
      if p i then Some i
      else match scan m p (i + 1) with
           | Some k => Some k
           | None => scan m p (i + 1 + Z.pos m)
           end
  end.

(** [for (let i = lo; i <= hi; i++) { if (p i) { j = i; break; } }]:
    the index the loop breaks at, if it does. *)
Definition for_break (lo hi : Z) (p : Z -> bool) : option Z :=
  match hi - lo + 1 with
  | Z.pos n => scan n p lo
  | _ => None
  end.

(** The same loop, one iteration per unit of fuel, with the variable [j]
    the source assigns at the [break]. *)
Fixpoint loop (fuel : nat) (hi : Z) (p : Z -> bool) (i j : Z) : Z :=
  match fuel with
  | O => j
  | S fuel' =>
      if i <=? hi
      then if p i then i else loop fuel' hi p (i + 1) j
      else j
  end.

Definition too_many_message (name : string) (max : Z) : string :=
  "store '" +:+ name +:+ "' created more than " +:+ pretty max +:+ ", please check it.".

Definition createStoreInstanceId
    (options : option StoreOptions) (name : string) (rt : Runtime)
    : Completion string :=
  let max := getInstanceMaxCount options in
  if negb (factory_get rt name) then Return name
  else
    let j := default 0 (for_break 1 (max - 1)
                          (fun i => negb (factory_get rt (suffixed name i)))) in
    if (j =? 0) && devMode rt
    then Throw (Error (too_many_message name max))
    else Return (suffixed name j).

(** ** Observables

    An [Observable] is the trace a subscriber sees: the values delivered
    in order, and how the stream ends, if it does. *)

Inductive Ending : Type :=
| Completes
| Fails (e : Value)
| NeverEnds.

Record Observable : Type := {
  values : list Value;
  ending : Ending
}.

(** How a [Promise] settles. *)
Inductive Promise : Type :=
| Resolves (v : Value)
| Rejects (e : Value)
| StaysPending.

(** rxjs [from(promise)]. *)
Definition from (p : Promise) : Observable :=
  match p with
  | Resolves v => {| values := [v]; ending := Completes |}
  | Rejects e => {| values := []; ending := Fails e |}
  | StaysPending => {| values := []; ending := NeverEnds |}
  end.

(** rxjs [map(f)]. *)
Definition map_op (f : Value -> Value) (o : Observable) : Observable :=
  {| values := map f (values o); ending := ending o |}.

(** rxjs [shareReplay()]: one subscription to the source, every value
    replayed to every subscriber; the trace of a subscriber is the trace
    of the source. *)
Definition shareReplay (o : Observable) : Observable := o.

(** rxjs [distinctUntilChanged()], with its default comparator [===]:
    the first value passes, a later one passes when it is not [===] to
    the last one that passed. *)
Fixpoint distinct_after (previous : Value) (vs : list Value) : list Value :=
  match vs with
  | [] => []
  | v :: vs' =>
      if strict_equals previous v
      then distinct_after previous vs'
      else v :: distinct_after v vs'
  end.

Definition distinctUntilChanged (vs : list Value) : list Value :=
  match vs with
  | [] => []
  | v :: vs' => v :: distinct_after v vs'
  end.

(** ** The store *)

(** rxjs [BehaviorSubject]: the current value.  The subject is taken to
    be live: neither [error] nor [complete] was signalled on it. *)
Record BehaviorSubject : Type := {
  _value : Value
}.

Record Store : Type := {
  initialStateCache : Value;
  state' : BehaviorSubject;
  defaultStoreInstanceId : string;
  name : string;
  storeOptions : option StoreOptions
}.

(** What an action implementation hands back to [_dispatch]. *)
Inductive ActionResult : Type :=
| Plain (v : Value)
| APromise (p : Promise)
| AnObservable (o : Observable).

(** [originalFn.call(this, snapshot, payload)]: the implementation runs
    on the store, which it may change, and returns or throws. *)
Record ActionMeta : Type := {
  originalFn :
    Value -> Value -> Store -> Runtime -> Completion ActionResult * Store * Runtime
}.

Record StoreMetaInfo : Type := {
  actions : gmap string ActionMeta
}.

Record Action : Type := {
  type : string;
  payload : Value
}.

(** A store object: its class, which carries the metadata the [Action]
    decorator attached under [META_KEY] (or none), and its fields.
    [meta] is what [this[META_KEY]] reads on an instance of the class,
    be the metadata attached to the class itself or to one it extends. *)
Record ClassInfo : Type := {
  constructor_name : string;
  (* what [/function (.+)\(/] captures in the source text of the
     constructor, when it matches *)
  constructor_source_name : option string;
  meta : option StoreMetaInfo
}.

(** [utils.ts]: [findAndCreateStoreMetadata(target)].  The argument is
    the own property of [target] under [META_KEY], which is what
    [hasOwnProperty] tests (metadata [target] only inherits does not
    count); the answer is the metadata returned and the own property of
    [target] afterwards. *)
Definition findAndCreateStoreMetadata (target : option StoreMetaInfo)
    : StoreMetaInfo * option StoreMetaInfo :=
  match target with
  | Some m => (m, Some m)
  | None =>
      let defaultMetadata := {| actions := ∅ |} in
      (defaultMetadata, Some defaultMetadata)
  end.

Definition snapshot (st : Store) : Value := _value (state' st).

Definition getState (st : Store) : Value := snapshot st.

Definition getStoreInstanceId (st : Store) : string := defaultStoreInstanceId st.

Definition getName (st : Store) : string := name st.

(** [next(state)]: the subject takes the new value. *)
Definition next (state : Value) (st : Store) : Store :=
  {| initialStateCache := initialStateCache st;
     state' := {| _value := state |};
     defaultStoreInstanceId := defaultStoreInstanceId st;
     name := name st;
     storeOptions := storeOptions st |}.

Definition alloc (rt : Runtime) : loc * Runtime :=
  (next_loc rt,
   {| instances := instances rt;
      devMode := devMode rt;
      next_loc := (next_loc rt + 1)%N |}).

(** The argument of [setState]: a partial state, or a function from the
    snapshot to one ([isFunction(fn)]). *)
Inductive StateArg : Type :=
| Patch (p : Value)
| Update (f : Value -> Value).

Definition setState (fn : StateArg) (st : Store) (rt : Runtime) : Store * Runtime :=
  let '(l, rt') := alloc rt in
  match fn with
  | Update f => (next (spread2 l (snapshot st) (f (snapshot st))) st, rt')
  | Patch p => (next (spread2 l (snapshot st) p) st, rt')
  end.

(** The body of the action [clearState]. *)
Definition clearState (st : Store) (rt : Runtime) : Store * Runtime :=
  setState (Patch (initialStateCache st)) st rt.

Definition getNameByConstructor (cls : ClassInfo) : Completion string :=
  if negb (String.eqb (constructor_name cls) EmptyString) then Return (constructor_name cls)
  else match constructor_source_name cls with
       | Some n => Return n
       | None => Throw (TypeError "Cannot read properties of null (reading '1')")
       end.

Definition setName (cls : ClassInfo) (options : option StoreOptions) : Completion string :=
  match options with
  | Some {| opt_name := Some n |} =>
      if negb (String.eqb n EmptyString) then Return n else getNameByConstructor cls
  | _ => getNameByConstructor cls
  end.

Definition JSON_stringify (value : Value) : option Json := serialize value.

(** The message of the [SyntaxError] of [JSON.parse(undefined)], which
    the comment in [cloneInitialState] quotes; the word [undefined] is in
    double quotes in it. *)
Definition not_valid_JSON : string :=
  String "034"%char ("undefined" +:+ String "034"%char " is not valid JSON").

(** [JSON.parse(text)]; the text of [undefined] is not a JSON document. *)
Definition JSON_parse (text : option Json) (rt : Runtime) : Completion Value * Runtime :=
  match text with
  | Some j =>
      let '(v, l) := parse j (next_loc rt) in
      (Return v, {| instances := instances rt; devMode := devMode rt; next_loc := l |})
  | None => (Throw (SyntaxError not_valid_JSON), rt)
  end.

Definition cloneInitialState (initialState : Value) (rt : Runtime)
    : Completion Value * Runtime :=
  JSON_parse (JSON_stringify initialState) rt.

(** Modelled from the spec: [InternalDispatcher] is not part of the
    sources.  The [INIT] dispatch of the constructor "performs no state
    mutation and its result is discarded". *)
Definition dispatch_INIT (id : string) (rt : Runtime) : Runtime := rt.

(** [new Store(initialState, options)]. *)
Definition new_Store (cls : ClassInfo) (initialState : Value)
    (options : option StoreOptions) (rt : Runtime) : Completion Store * Runtime :=
  match setName cls options with
  | Throw e => (Throw e, rt)
  | Return name =>
      match createStoreInstanceId options name rt with
      | Throw e => (Throw e, rt)
      | Return id =>
          match cloneInitialState initialState rt with
          | (Throw e, rt1) => (Throw e, rt1)
          | (Return cache, rt1) =>
              let this := {| initialStateCache := cache;
                             state' := {| _value := initialState |};
                             defaultStoreInstanceId := id;
                             name := name;
                             storeOptions := options |} in
              let rt2 := factory_register (getStoreInstanceId this) rt1 in
              (Return this, dispatch_INIT (getStoreInstanceId this) rt2)
          end
      end
  end.

(** [ngOnDestroy]: the id leaves the registry ([cancelUncompleted] only
    concerns the dispatcher). *)
Definition ngOnDestroy (st : Store) (rt : Runtime) : Runtime :=
  factory_unregister (getStoreInstanceId st) rt.

Definition meta_not_found : JsError :=
  Error (META_KEY +:+ " is not found, current store has not action").

Definition action_not_found (type : string) : JsError :=
  Error (type +:+ " is not found").

(** The properties every plain object inherits from [Object.prototype].
    [meta.actions] is a plain object ([actions: {}] in [utils.ts]), so
    [meta.actions[name]] answers the inherited function (for [__proto__],
    the prototype itself) when [name] is one of these and no action has
    the name: a truthy value without [originalFn]. *)
Definition Object_prototype_names : list string :=
  ["constructor"; "hasOwnProperty"; "isPrototypeOf"; "propertyIsEnumerable";
   "toLocaleString"; "toString"; "valueOf"; "__proto__";
   "__defineGetter__"; "__defineSetter__"; "__lookupGetter__"; "__lookupSetter__"].

Definition inherited_from_Object (name : string) : bool :=
  existsb (String.eqb name) Object_prototype_names.

(** [actionMeta.originalFn.call(...)] when [originalFn] is [undefined]. *)
Definition call_of_undefined : JsError :=
  TypeError "Cannot read properties of undefined (reading 'call')".

Definition _dispatch (cls : ClassInfo) (action : Action) (st : Store) (rt : Runtime)
    : Completion Observable * Store * Runtime :=
  match meta cls with
  | None => (Throw meta_not_found, st, rt)
  | Some meta =>
      match actions meta !! type action with
      | None =>
          if inherited_from_Object (type action)
          then (Throw call_of_undefined, st, rt)
          else (Throw (action_not_found (type action)), st, rt)
      | Some actionMeta =>
          match originalFn actionMeta (snapshot st) (payload action) st rt with
          | (Throw e, st1, rt1) => (Throw e, st1, rt1)
          | (Return result, st1, rt1) =>
              let result :=
                match result with
                | APromise p => AnObservable (from p)
                | _ => result
                end in
              match result with
              | AnObservable o =>
                  (Return (shareReplay (map_op (fun r => r) o)), st1, rt1)
              | _ =>
                  let '(l, rt2) := alloc rt1 in
                  (Return (shareReplay {| values := [VObj l []]; ending := NeverEnds |}),
                   st1, rt2)
              end
          end
      end
  end.

(** The deprecated [dispatch(type, payload)]: [_dispatch], then a
    subscription that starts the stream. *)
Definition dispatch (cls : ClassInfo) (type : string) (payload : Value)
    (st : Store) (rt : Runtime) : Completion Observable * Store * Runtime :=
  _dispatch cls {| type := type; payload := payload |} st rt.

(** What [state$] delivers to a subscriber: the current value at once
    (a [BehaviorSubject] replays it), then every value [next] is called
    with. *)
Definition subscribe_state (st : Store) (later : list Value) : list Value :=
  snapshot st :: later.

(** [select(selector)], for a subscriber that sees [later] published
    after it subscribed. *)
Definition select (selector : Value -> Value) (st : Store) (later : list Value)
    : list Value :=
  distinctUntilChanged (map selector (subscribe_state st later)).

(** The snapshots a sequence of [setState] calls publishes, in order. *)
Fixpoint published (calls : list StateArg) (st : Store) (rt : Runtime) : list Value :=
  match calls with
  | [] => []
  | fn :: calls' =>
      let '(st', rt') := setState fn st rt in
      snapshot st' :: published calls' st' rt'
  end.

(** The store and runtime after a sequence of [setState] calls. *)
Fixpoint setStates (calls : list StateArg) (st : Store) (rt : Runtime) : Store * Runtime :=
  match calls with
  | [] => (st, rt)
  | fn :: calls' =>
      let '(st', rt') := setState fn st rt in
      setStates calls' st' rt'
  end.

(** ** The id allocation, in the words of its description *)

(** The rule the constructor follows: the bare name when no live store
    holds it, else the first suffix of [1..instanceMaxCount-1] no live
    store holds. *)
Inductive allocation_rule (options : option StoreOptions) (name : string) (rt : Runtime)
    : string -> Prop :=
| bare_name :
    name ∉ instances rt ->
    allocation_rule options name rt name
| first_unused_suffix (i : Z) :
    name ∈ instances rt ->
    1 <= i <= getInstanceMaxCount options - 1 ->
    suffixed name i ∉ instances rt ->
    (forall j, 1 <= j < i -> suffixed name j ∈ instances rt) ->
    allocation_rule options name rt (suffixed name i).

(** An id of the store type [name]: the bare name or a suffixed one. *)
Definition instance_of (name id : string) : Prop :=
  id = name \/ exists i, 0 <= i /\ id = suffixed name i.

Definition type_is_live (rt : Runtime) (name : string) : Prop :=
  exists id, id ∈ instances rt /\ instance_of name id.

(** The rule with "no live instance of the type name exists" as the
    condition of the bare name. *)
Definition allocation_by_type (options : option StoreOptions) (name : string)
    (rt : Runtime) (id : string) : Prop :=
  (~ type_is_live rt name /\ id = name) \/
  (type_is_live rt name /\
   exists i, 1 <= i <= getInstanceMaxCount options - 1 /\
             (suffixed name i ∉ instances rt) /\
             (forall j, 1 <= j < i -> suffixed name j ∈ instances rt) /\
             id = suffixed name i).

(** ** Notions the properties are stated with *)

(** The partial state a call of [setState] merges over the snapshot. *)
Definition patch_of (fn : StateArg) (snapshot : Value) : Value :=
  match fn with
  | Patch p => p
  | Update f => f snapshot
  end.

(** The property read [v.k] of an own property; [undefined] when there
    is none. *)
Definition read (k : string) (v : Value) : Value :=
  default VUndefined (get v k).

(** A value whose objects, at every depth, have no key twice: every
    value the runtime can build. *)
Fixpoint well_formed (v : Value) : Prop :=
  match v with
  | VArr _ es => fold_right (fun e rest => well_formed e /\ rest) True es
  | VObj _ ps =>
      NoDup (map fst ps) /\
      fold_right (fun kv rest => well_formed (snd kv) /\ rest) True ps
  | _ => True
  end.

(** ** Sample stores *)

(** A runtime with the given live ids; the locations below 100 are left
    to the objects the examples start from. *)
Definition runtime_of (ids : list string) (dev : bool) : Runtime :=
  {| instances := list_to_set ids; devMode := dev; next_loc := 100 |}.

Definition max_count (n : Z) : option StoreOptions :=
  Some {| opt_name := None; instanceMaxCount := Some n |}.

Definition class_X : ClassInfo :=
  {| constructor_name := "X"; constructor_source_name := None; meta := None |}.

Definition num (z : Z) : Value := VNum (Finite z).


(** A store class with three actions: [increase] adds one to the field
    [count] with [setState], [answer] returns the plain value 42, and
    [fail] throws. *)
Definition increase : ActionMeta :=
  {| originalFn := fun snapshot _ st rt =>
       let count := match read "count" snapshot with
                    | VNum (Finite z) => z
                    | _ => 0
                    end in
       let '(st', rt') := setState (Patch (VObj 1 [("count", num (count + 1))])) st rt in
       (Return (Plain VUndefined), st', rt') |}.

Definition answer : ActionMeta :=
  {| originalFn := fun _ _ st rt => (Return (Plain (num 42)), st, rt) |}.

Definition fail : ActionMeta :=
  {| originalFn := fun _ _ st rt => (Throw (Error "boom"), st, rt) |}.

Definition class_Counter : ClassInfo :=
  {| constructor_name := "Counter";
     constructor_source_name := None;
     meta := Some {| actions := {[ "increase" := increase; "answer" := answer;
                                   "fail" := fail ]} |} |}.

Definition counter_store : Store :=
  {| initialStateCache := VObj 2 [("count", num 0)];
     state' := {| _value := VObj 0 [("count", num 0)] |};
     defaultStoreInstanceId := "Counter";
     name := "Counter";
     storeOptions := None |}.

(** ** Error messages *)

Definition message_of (e : JsError) : string :=
  match e with
  | Error m | TypeError m | SyntaxError m => m
  end.

Fixpoint last_char (s : string) : option ascii :=
  match s with
  | EmptyString => None
  | String c EmptyString => Some c
  | String _ s' => last_char s'
  end.

(** ** Histories of constructions and destructions *)

(** One event in the life of the registry: a store is constructed, or
    the [i]-th of the live stores is destroyed. *)
Inductive Op : Type :=
| Construct (cls : ClassInfo) (initialState : Value) (options : option StoreOptions)
| Destroy (i : nat).

(** The live stores, most recent first, and the runtime after an event.
    A construction that throws adds no store. *)
Definition step (w : list Store * Runtime) (op : Op) : list Store * Runtime :=
  match op with
  | Construct cls initialState options =>
      match new_Store cls initialState options (snd w) with
      | (Return st, rt') => (st :: fst w, rt')
      | (Throw _, rt') => (fst w, rt')
      end
  | Destroy i =>
      match fst w !! i with
      | Some st => (delete i (fst w), ngOnDestroy st (snd w))
      | None => w
      end
  end.

Definition run (ops : list Op) (w : list Store * Runtime) : list Store * Runtime :=
  fold_left step ops w.

(** ** Identities and values JSON keeps *)

(** The identities of the functions, arrays and objects of a value. *)
Fixpoint locs (v : Value) : list loc :=
  match v with
  | VFun l => [l]
  | VArr l es => l :: flat_map locs es
  | VObj l ps => l :: flat_map (fun kv => locs (snd kv)) ps
  | _ => []
  end.

(** The identities in the values of a list of properties. *)
Definition props_locs (ps : list (string * Value)) : list loc :=
  flat_map (fun kv => locs (snd kv)) ps.

(** The identities between [lo] and [hi]. *)
Definition between (lo hi : loc) (x : loc) : Prop := (lo <= x < hi)%N.

(** The members [serialize] writes for the properties of an object, and
    the elements it writes for an array. *)
Definition json_members (ps : list (string * Value)) : list (string * Json) :=
  flat_map (fun kv => match serialize (snd kv) with
                      | Some j => [(fst kv, j)]
                      | None => []
                      end) ps.

Definition json_elements (es : list Value) : list Json :=
  map (fun e => default JNull (serialize e)) es.

(** A value made of [null], booleans, finite numbers, strings, arrays
    and objects only, no object having a key twice. *)
Fixpoint json_clean (v : Value) : Prop :=
  match v with
  | VUndefined => False
  | VFun _ => False
  | VNum (Finite _) => True
  | VNum _ => False
  | VArr _ es => fold_right (fun e rest => json_clean e /\ rest) True es
  | VObj _ ps =>
      NoDup (map fst ps) /\
      fold_right (fun kv rest => json_clean (snd kv) /\ rest) True ps
  | _ => True
  end.

(** The identity of the value, if it has one, was allocated before the
    next allocation of the runtime. *)
Definition allocated (rt : Runtime) (v : Value) : Prop :=
  match v with
  | VFun l | VArr l _ | VObj l _ => (l < next_loc rt)%N
  | _ => True
  end.

(** ** [utils.ts]: [keyBy], [indexKeyBy], [coerceArray] *)

Section KeyBy.
(** Two parts of the language the loops of [keyBy] and [indexKeyBy] rely
    on: the conversion of a value to a property key ([ToPropertyKey]),
    applied in [result[keyValue] = ...], and what a property read finds
    beyond the own enumerable properties of a value, that is its
    non-enumerable and inherited properties (the [length] of an array,
    [toString]), if it has one of the name. *)
Context (toPropertyKey : Value -> string).
Context (other_property : Value -> string -> option Value).







End KeyBy.


(** [Array.isArray(value) ? value : [value]]. *)
Definition coerceArray (value : Value) (rt : Runtime) : Value * Runtime :=
  match value with
  | VArr _ _ => (value, rt)
  | _ => let '(l, rt') := alloc rt in (VArr l [value], rt')
  end.

(** * Properties *)

(** ** The [for] loop of the id allocation *)

Lemma scan_None (n : positive) (p : Z -> bool) (i : Z) :
  scan n p i = None <-> forall k, i <= k < i + Z.pos n -> p k = false.
Proof.
  revert i. induction n as [m IH | m IH | ]; intros i; simpl.
  - destruct (p i) eqn:Hi.
    + split; [discriminate |]. intros H. rewrite H in Hi by lia. discriminate.
    + destruct (scan m p (i + 1)) eqn:H1.
      * split; [discriminate |]. intros H.
        assert (scan m p (i + 1) = None) as H2 by (apply IH; intros; apply H; lia).
        congruence.
      * rewrite IH. pose proof (proj1 (IH _) H1) as H1'. split.
        -- intros H2 k Hk. destruct (Z.eq_dec k i) as [-> | ]; [exact Hi |].
           destruct (Z_lt_dec k (i + 1 + Z.pos m)); [apply H1' | apply H2]; lia.
        -- intros H k Hk. apply H. lia.
  - destruct (scan m p i) eqn:H1.
    + split; [discriminate |]. intros H.
      assert (scan m p i = None) as H2 by (apply IH; intros; apply H; lia).
      congruence.
    + rewrite IH. pose proof (proj1 (IH _) H1) as H1'. split.
      * intros H2 k Hk.
        destruct (Z_lt_dec k (i + Z.pos m)); [apply H1' | apply H2]; lia.
      * intros H k Hk. apply H. lia.
  - destruct (p i) eqn:Hi.
    + split; [discriminate |]. intros H. rewrite H in Hi by lia. discriminate.
    + split; [| reflexivity]. intros _ k Hk. replace k with i by lia. exact Hi.
Qed.

Lemma scan_Some (n : positive) (p : Z -> bool) (i k : Z) :
  scan n p i = Some k ->
  i <= k < i + Z.pos n /\ p k = true /\ forall j, i <= j < k -> p j = false.
Proof.
  revert i. induction n as [m IH | m IH | ]; intros i; simpl.
  - destruct (p i) eqn:Hi.
    + intros [= <-]. repeat split; try lia. exact Hi.
    + destruct (scan m p (i + 1)) eqn:H1.
      * intros [= <-]. apply IH in H1 as (Hr & Hk & Hj).
        repeat split; try lia; [exact Hk |].
        intros j Hjr. destruct (Z.eq_dec j i) as [-> | ]; [exact Hi | apply Hj; lia].
      * intros H2. apply IH in H2 as (Hr & Hk & Hj).
        repeat split; try lia; [exact Hk |].
        intros j Hjr. destruct (Z.eq_dec j i) as [-> | ]; [exact Hi |].
        destruct (Z_lt_dec j (i + 1 + Z.pos m)).
        -- apply (proj1 (scan_None m p (i + 1)) H1). lia.
        -- apply Hj. lia.
  - destruct (scan m p i) eqn:H1.
    + intros [= <-]. apply IH in H1 as (Hr & Hk & Hj).
      repeat split; try lia; [exact Hk | exact Hj].
    + intros H2. apply IH in H2 as (Hr & Hk & Hj).
      repeat split; try lia; [exact Hk |].
      intros j Hjr. destruct (Z_lt_dec j (i + Z.pos m)).
      * apply (proj1 (scan_None m p i) H1). lia.
      * apply Hj. lia.
  - destruct (p i) eqn:Hi; [| discriminate].
    intros [= <-]. repeat split; try lia. exact Hi.
Qed.

Lemma for_break_None (lo hi : Z) (p : Z -> bool) :
  for_break lo hi p = None <-> forall k, lo <= k <= hi -> p k = false.
Proof.
  unfold for_break. destruct (hi - lo + 1) as [| n | n] eqn:Hn.
  - split; [| reflexivity]. intros _ k Hk. lia.
  - rewrite scan_None. split; intros H k Hk; apply H; lia.
  - split; [| reflexivity]. intros _ k Hk. lia.
Qed.

Lemma for_break_Some (lo hi : Z) (p : Z -> bool) (k : Z) :
  for_break lo hi p = Some k <->
  lo <= k <= hi /\ p k = true /\ forall j, lo <= j < k -> p j = false.
Proof.
  split.
  - unfold for_break. destruct (hi - lo + 1) as [| n | n] eqn:Hn; try discriminate.
    intros H. apply scan_Some in H as (Hr & Hk & Hj). repeat split; try lia; assumption.
  - intros (Hr & Hk & Hj). destruct (for_break lo hi p) as [k' |] eqn:H.
    + f_equal. assert (H' := H). unfold for_break in H'.
      destruct (hi - lo + 1) as [| n | n] eqn:Hn; try discriminate.
      apply scan_Some in H' as (Hr' & Hk' & Hj').
      destruct (Z_lt_dec k k') as [Hlt | ].
      * rewrite Hj' in Hk by lia. discriminate.
      * destruct (Z_lt_dec k' k) as [Hlt | ]; [| lia].
        rewrite Hj in Hk' by lia. discriminate.
    + rewrite for_break_None in H. rewrite H in Hk by lia. discriminate.
Qed.

(** The loop of the source, run with enough fuel for all its iterations,
    ends with [j] at the index [for_break] finds, and leaves [j] as it
    was when there is none. *)
Lemma loop_for_break (fuel : nat) (hi : Z) (p : Z -> bool) (i j : Z) :
  (Z.to_nat (hi - i + 1) <= fuel)%nat ->
  loop fuel hi p i j = default j (for_break i hi p).
Proof.
  revert i. induction fuel as [| fuel IH]; intros i Hfuel; simpl.
  - assert (for_break i hi p = None) as ->; [| reflexivity].
    apply for_break_None. intros k Hk. lia.
  - destruct (Z.leb_spec i hi) as [Hle | Hgt].
    + destruct (p i) eqn:Hi.
      * assert (for_break i hi p = Some i) as ->; [| reflexivity].
        apply for_break_Some. split; [lia |]. split; [exact Hi |]. intros; lia.
      * rewrite IH by lia.
        destruct (for_break (i + 1) hi p) as [k |] eqn:H.
        -- apply for_break_Some in H as (Hr & Hk & Hj).
           assert (for_break i hi p = Some k) as ->; [| reflexivity].
           apply for_break_Some. split; [lia |]. split; [exact Hk |].
           intros j' Hj'. destruct (Z.eq_dec j' i) as [-> | ]; [exact Hi | apply Hj; lia].
        -- rewrite for_break_None in H.
           assert (for_break i hi p = None) as ->; [| reflexivity].
           apply for_break_None. intros k Hk.
           destruct (Z.eq_dec k i) as [-> | ]; [exact Hi | apply H; lia].
    + assert (for_break i hi p = None) as ->; [| reflexivity].
      apply for_break_None. intros k Hk. lia.
Qed.

(** ** Strings *)

Lemma append_cons (c : ascii) (s t : string) :
  String c s +:+ t = String c (s +:+ t).
Proof. reflexivity. Qed.

Lemma length_append (s t : string) :
  String.length (s +:+ t) = (String.length s + String.length t)%nat.
Proof.
  induction s as [| c s IH]; [reflexivity |].
  rewrite append_cons. simpl. now rewrite IH.
Qed.

Lemma suffixed_inj (name : string) (i j : Z) :
  suffixed name i = suffixed name j -> i = j.
Proof.
  unfold suffixed. intros H.
  apply (String.app_inj name), (String.app_inj "-") in H.
  now apply pretty_Z_inj in H.
Qed.

Lemma suffixed_neq_name (name : string) (i : Z) : suffixed name i <> name.
Proof.
  unfold suffixed. intros H. apply (f_equal String.length) in H.
  rewrite !length_append in H. simpl in H. lia.
Qed.

(** ** Id allocation *)

Lemma factory_get_true (rt : Runtime) (id : string) :
  factory_get rt id = true <-> id ∈ instances rt.
Proof. unfold factory_get. apply bool_decide_eq_true. Qed.

Lemma factory_get_false (rt : Runtime) (id : string) :
  factory_get rt id = false <-> id ∉ instances rt.
Proof. unfold factory_get. apply bool_decide_eq_false. Qed.

(** The store ids are exhausted: the bare name and every suffix of
    [1..max-1] are taken. *)
Lemma createStoreInstanceId_exhausted (options : option StoreOptions)
    (name : string) (rt : Runtime) :
  name ∈ instances rt ->
  (forall i, 1 <= i <= getInstanceMaxCount options - 1 -> suffixed name i ∈ instances rt) ->
  createStoreInstanceId options name rt =
    if devMode rt
    then Throw (Error (too_many_message name (getInstanceMaxCount options)))
    else Return (suffixed name 0).
Proof.
  intros Hname Hall. unfold createStoreInstanceId.
  rewrite (proj2 (factory_get_true rt name) Hname). simpl.
  assert (for_break 1 (getInstanceMaxCount options - 1)
            (fun i => negb (factory_get rt (suffixed name i))) = None) as ->.
  { apply for_break_None. intros k Hk.
    rewrite (proj2 (factory_get_true rt (suffixed name k)) (Hall k Hk)). reflexivity. }
  simpl. destruct (devMode rt); reflexivity.
Qed.

Lemma createStoreInstanceId_suffix (options : option StoreOptions)
    (name : string) (rt : Runtime) (i : Z) :
  name ∈ instances rt ->
  1 <= i <= getInstanceMaxCount options - 1 ->
  suffixed name i ∉ instances rt ->
  (forall j, 1 <= j < i -> suffixed name j ∈ instances rt) ->
  createStoreInstanceId options name rt = Return (suffixed name i).
Proof.
  intros Hname Hi Hfree Hused. unfold createStoreInstanceId.
  rewrite (proj2 (factory_get_true rt name) Hname). simpl.
  assert (for_break 1 (getInstanceMaxCount options - 1)
            (fun i => negb (factory_get rt (suffixed name i))) = Some i) as ->.
  { apply for_break_Some. split; [exact Hi |]. split.
    - rewrite (proj2 (factory_get_false rt (suffixed name i)) Hfree). reflexivity.
    - intros j Hj.
      rewrite (proj2 (factory_get_true rt (suffixed name j)) (Hused j Hj)). reflexivity. }
  simpl. destruct (Z.eqb_spec i 0) as [-> | _]; [lia |]. reflexivity.
Qed.

Lemma createStoreInstanceId_bare (options : option StoreOptions)
    (name : string) (rt : Runtime) :
  name ∉ instances rt ->
  createStoreInstanceId options name rt = Return name.
Proof.
  intros Hname. unfold createStoreInstanceId.
  rewrite (proj2 (factory_get_false rt name) Hname). reflexivity.
Qed.

(** C4, as amended.  The constructor gives the store the bare type name
    as its id when no live store holds the bare name (whether or not
    suffixed stores of the type are live); when the bare name is held,
    the id is the name with the first suffix of [1..instanceMaxCount-1],
    in increasing order, that no live store holds. *)
Theorem createStoreInstanceId_allocation_rule
    (options : option StoreOptions) (name : string) (rt : Runtime) (id : string) :
  allocation_rule options name rt id ->
  createStoreInstanceId options name rt = Return id.
Proof.
  intros [Hfree | i Hname Hi Hfree Hused].
  - now apply createStoreInstanceId_bare.
  - now apply createStoreInstanceId_suffix.
Qed.

(** Membership in a concrete registry is settled by evaluation. *)
Ltac by_evaluation :=
  first [apply (bool_decide_eq_true_1 _) | apply (bool_decide_eq_false_1 _)];
  vm_compute; reflexivity.

(** Two stores of type [X] are live, [X] and [X-1]: the third gets
    [X-2]. *)
Lemma createStoreInstanceId_allocation_rule_witness :
  createStoreInstanceId (max_count 3) "X" (runtime_of ["X"; "X-1"] true) = Return "X-2".
Proof.
  apply (createStoreInstanceId_allocation_rule (max_count 3) "X"
           (runtime_of ["X"; "X-1"] true) (suffixed "X" 2)).
  apply first_unused_suffix.
  - by_evaluation.
  - simpl. lia.
  - by_evaluation.
  - intros j Hj. assert (j = 1) as -> by lia. by_evaluation.
Defined.

(** C4, as stated, fails: [X] was destroyed and [X-1] is still live, so
    a live instance of the type exists, and yet the new store gets the
    bare name [X], not the first unused suffix. *)
Lemma allocation_by_type_counterexample :
  createStoreInstanceId (max_count 3) "X" (runtime_of ["X-1"] true) = Return "X" /\
  ~ allocation_by_type (max_count 3) "X" (runtime_of ["X-1"] true) "X".
Proof.
  split; [reflexivity |].
  intros [[Hdead _] | [_ (i & _ & _ & _ & Hid)]].
  - apply Hdead. exists "X-1". split.
    + by_evaluation.
    + right. exists 1. split; [lia | reflexivity].
  - symmetry in Hid. now apply suffixed_neq_name in Hid.
Qed.

Lemma new_Store_id_throws (cls : ClassInfo) (initialState : Value)
    (options : option StoreOptions) (rt : Runtime) (name : string) (e : JsError) :
  setName cls options = Return name ->
  createStoreInstanceId options name rt = Throw e ->
  new_Store cls initialState options rt = (Throw e, rt).
Proof. intros Hname Hid. unfold new_Store. now rewrite Hname, Hid. Qed.

Lemma new_Store_returns (cls : ClassInfo) (initialState : Value)
    (options : option StoreOptions) (rt : Runtime) (name id : string) (j : Json) :
  setName cls options = Return name ->
  createStoreInstanceId options name rt = Return id ->
  JSON_stringify initialState = Some j ->
  new_Store cls initialState options rt =
    (Return {| initialStateCache := fst (parse j (next_loc rt));
               state' := {| _value := initialState |};
               defaultStoreInstanceId := id;
               name := name;
               storeOptions := options |},
     {| instances := {[ id ]} ∪ instances rt;
        devMode := devMode rt;
        next_loc := snd (parse j (next_loc rt)) |}).
Proof.
  intros Hname Hid Hj. unfold new_Store, cloneInitialState, JSON_parse.
  rewrite Hname, Hid, Hj. destruct (parse j (next_loc rt)) as [v l]. reflexivity.
Qed.

(** C1, as amended.  When the bare name and every suffix of
    [1..instanceMaxCount-1] are held by live stores (for
    [instanceMaxCount = 3]: [X], [X-1], [X-2]), constructing one more store
    in dev mode throws the configuration error and leaves the registry as
    it was; in production mode the construction succeeds and the store
    gets the id with suffix 0, which it registers, and which the next
    construction over the cap gets again. *)
Theorem new_Store_over_the_cap (cls : ClassInfo) (initialState : Value)
    (o : StoreOptions) (n : Z) (name : string) (rt : Runtime) :
  instanceMaxCount o = Some n ->
  0 < n ->
  setName cls (Some o) = Return name ->
  name ∈ instances rt ->
  (forall i, 1 <= i <= n - 1 -> suffixed name i ∈ instances rt) ->
  (devMode rt = true ->
   new_Store cls initialState (Some o) rt =
     (Throw (Error (too_many_message name n)), rt)) /\
  (devMode rt = false ->
   createStoreInstanceId (Some o) name rt = Return (suffixed name 0) /\
   forall j, JSON_stringify initialState = Some j ->
     exists st rt',
       new_Store cls initialState (Some o) rt = (Return st, rt') /\
       getStoreInstanceId st = suffixed name 0 /\
       instances rt' = {[ suffixed name 0 ]} ∪ instances rt /\
       createStoreInstanceId (Some o) name rt' = Return (suffixed name 0)).
Proof.
  intros Hn Hpos Hname Hbare Hall.
  assert (getInstanceMaxCount (Some o) = n) as Hmax.
  { simpl. rewrite Hn. destruct (Z.leb_spec n 0); [lia | reflexivity]. }
  assert (createStoreInstanceId (Some o) name rt =
            if devMode rt then Throw (Error (too_many_message name n))
            else Return (suffixed name 0)) as Hid.
  { rewrite <- Hmax. apply createStoreInstanceId_exhausted; [exact Hbare |].
    rewrite Hmax. exact Hall. }
  split; intros Hmode; rewrite Hmode in Hid.
  - now apply new_Store_id_throws with (name := name).
  - split; [exact Hid |]. intros j Hj. eexists _, _. split.
    + now apply new_Store_returns with (name := name) (id := suffixed name 0) (j := j).
    + split; [reflexivity |]. split; [reflexivity |].
      rewrite createStoreInstanceId_exhausted.
      * simpl. now rewrite Hmode.
      * simpl. apply elem_of_union_r. exact Hbare.
      * rewrite Hmax. intros i Hi. simpl. apply elem_of_union_r. now apply Hall.
Qed.

(** [instanceMaxCount = 3] and the three stores [X], [X-1], [X-2] live. *)
Lemma new_Store_over_the_cap_witness :
  (new_Store class_X (VObj 0 []) (max_count 3)
     (runtime_of ["X"; "X-1"; "X-2"] true) =
     (Throw (Error "store 'X' created more than 3, please check it."),
      runtime_of ["X"; "X-1"; "X-2"] true)) /\
  createStoreInstanceId (max_count 3) "X" (runtime_of ["X"; "X-1"; "X-2"] false)
    = Return "X-0".
Proof.
  split.
  - apply (new_Store_over_the_cap class_X (VObj 0 [])
             {| opt_name := None; instanceMaxCount := Some 3 |} 3 "X"
             (runtime_of ["X"; "X-1"; "X-2"] true));
      [reflexivity | lia | reflexivity | by_evaluation | | reflexivity].
    intros i Hi. assert (i = 1 \/ i = 2) as [-> | ->] by lia; by_evaluation.
  - apply (new_Store_over_the_cap class_X (VObj 0 [])
             {| opt_name := None; instanceMaxCount := Some 3 |} 3 "X"
             (runtime_of ["X"; "X-1"; "X-2"] false));
      [reflexivity | lia | reflexivity | by_evaluation | | reflexivity].
    intros i Hi. assert (i = 1 \/ i = 2) as [-> | ->] by lia; by_evaluation.
Defined.

(** C1, as stated, fails in its last part: with [X], [X-1] and [X-2]
    live, the fourth store gets the id [X-0] in production mode, and no
    live store holds that id: nothing existing is reused. *)
Lemma reused_id_counterexample :
  createStoreInstanceId (max_count 3) "X" (runtime_of ["X"; "X-1"; "X-2"] false)
    = Return "X-0" /\
  ~ (exists id,
       createStoreInstanceId (max_count 3) "X" (runtime_of ["X"; "X-1"; "X-2"] false)
         = Return id /\
       id ∈ instances (runtime_of ["X"; "X-1"; "X-2"] false)).
Proof.
  split; [reflexivity |].
  intros (id & Hid & Hlive).
  assert (id = "X-0") as -> by (vm_compute in Hid; congruence).
  revert Hlive. by_evaluation.
Qed.

(** C8.  The cap the allocation uses is the configured
    [instanceMaxCount] when that is positive, [MAX_SAFE_INTEGER]
    (2^53 - 1) when it is 0, and 20 when none is configured, be it that
    there are no options or that the options have no [instanceMaxCount]. *)
Theorem getInstanceMaxCount_cases (o : StoreOptions) (n : Z) :
  (instanceMaxCount o = Some n -> 0 < n -> getInstanceMaxCount (Some o) = n) /\
  (instanceMaxCount o = Some 0 ->
   getInstanceMaxCount (Some o) = MAX_SAFE_INTEGER /\ MAX_SAFE_INTEGER = 2 ^ 53 - 1) /\
  (instanceMaxCount o = None -> getInstanceMaxCount (Some o) = 20) /\
  getInstanceMaxCount None = 20.
Proof.
  split; [| split; [| split]].
  - intros Hn Hpos. simpl. rewrite Hn. destruct (Z.leb_spec n 0); [lia | reflexivity].
  - intros Hn. simpl. rewrite Hn. split; reflexivity.
  - intros Hn. simpl. now rewrite Hn.
  - reflexivity.
Qed.

Lemma getInstanceMaxCount_cases_witness :
  getInstanceMaxCount (max_count 3) = 3 /\
  getInstanceMaxCount (max_count 0) = MAX_SAFE_INTEGER /\
  getInstanceMaxCount (Some {| opt_name := Some "X"; instanceMaxCount := None |}) = 20.
Proof.
  split; [| split].
  - apply (proj1 (getInstanceMaxCount_cases
                    {| opt_name := None; instanceMaxCount := Some 3 |} 3));
      [reflexivity | lia].
  - apply (proj1 (proj2 (getInstanceMaxCount_cases
                           {| opt_name := None; instanceMaxCount := Some 0 |} 0))).
    reflexivity.
  - apply (proj1 (proj2 (proj2 (getInstanceMaxCount_cases
                                  {| opt_name := Some "X"; instanceMaxCount := None |} 0)))).
    reflexivity.
Defined.

(** ** Own properties and the spread *)

Lemma assoc_get_set {A : Type} (k k' : string) (v : A) (ps : list (string * A)) :
  assoc_get (assoc_set k v ps) k' =
    if String.eqb k k' then Some v else assoc_get ps k'.
Proof.
  induction ps as [| [k0 v0] ps IH]; simpl.
  - reflexivity.
  - destruct (String.eqb_spec k0 k) as [-> | Hne]; simpl.
    + destruct (String.eqb_spec k k'); reflexivity.
    + destruct (String.eqb_spec k0 k') as [-> | Hne'].
      * destruct (String.eqb_spec k k'); [congruence | reflexivity].
      * exact IH.
Qed.

Lemma assoc_set_same {A : Type} (k : string) (v : A) (ps : list (string * A)) :
  assoc_get ps k = Some v -> assoc_set k v ps = ps.
Proof.
  induction ps as [| [k0 v0] ps IH]; simpl; [discriminate |].
  destruct (String.eqb_spec k0 k) as [-> | Hne].
  - now intros [= ->].
  - intros H. now rewrite IH.
Qed.

Lemma assoc_get_None {A : Type} (ps : list (string * A)) (k : string) :
  assoc_get ps k = None <-> ~ In k (map fst ps).
Proof.
  induction ps as [| [k0 v0] ps IH]; simpl.
  - tauto.
  - destruct (String.eqb_spec k0 k) as [-> | Hne].
    + split; [discriminate | tauto].
    + rewrite IH. tauto.
Qed.

Lemma assoc_get_In {A : Type} (ps : list (string * A)) (k : string) (v : A) :
  NoDup (map fst ps) -> In (k, v) ps -> assoc_get ps k = Some v.
Proof.
  induction ps as [| [k0 v0] ps IH]; simpl; [tauto |].
  intros Hnd [[= -> ->] | Hin].
  - now rewrite String.eqb_refl.
  - inversion Hnd as [| ? ? Hk0 Hnd']; subst.
    destruct (String.eqb_spec k0 k) as [-> | Hne].
    + exfalso. apply Hk0, list_elem_of_In.
      change k with (fst (k, v)). now apply in_map.
    + now apply IH.
Qed.

Lemma assoc_get_Some_In {A : Type} (ps : list (string * A)) (k : string) (v : A) :
  assoc_get ps k = Some v -> In (k, v) ps.
Proof.
  induction ps as [| [k0 v0] ps IH]; simpl; [discriminate |].
  destruct (String.eqb_spec k0 k) as [-> | Hne].
  - intros [= ->]. now left.
  - intros H. right. now apply IH.
Qed.

Lemma assoc_set_keys {A : Type} (k : string) (v : A) (ps : list (string * A)) :
  map fst (assoc_set k v ps) =
    match assoc_get ps k with
    | Some _ => map fst ps
    | None => (map fst ps ++ [k])%list
    end.
Proof.
  induction ps as [| [k0 v0] ps IH]; simpl; [reflexivity |].
  destruct (String.eqb_spec k0 k) as [-> | Hne]; simpl; [reflexivity |].
  rewrite IH. now destruct (assoc_get ps k).
Qed.

Lemma assoc_set_fresh {A : Type} (k : string) (v : A) (ps : list (string * A)) :
  ~ In k (map fst ps) -> assoc_set k v ps = (ps ++ [(k, v)])%list.
Proof.
  induction ps as [| [k0 v0] ps IH]; simpl; [reflexivity |].
  intros Hk. destruct (String.eqb_spec k0 k) as [-> | Hne]; [tauto |].
  rewrite IH by tauto. reflexivity.
Qed.

Lemma assoc_set_NoDup {A : Type} (k : string) (v : A) (ps : list (string * A)) :
  NoDup (map fst ps) -> NoDup (map fst (assoc_set k v ps)).
Proof.
  intros Hnd. rewrite assoc_set_keys.
  destruct (assoc_get ps k) eqn:Hk; [exact Hnd |].
  apply assoc_get_None in Hk.
  apply NoDup_app. split; [exact Hnd |]. split; [| apply NoDup_singleton].
  intros x Hx Hx'%list_elem_of_singleton. subst. apply Hk. now apply list_elem_of_In.
Qed.

Lemma copy_props_fold (target : list (string * Value)) (src : Value) :
  copy_props target src = fold_left (copy_step src) (own_keys src) target.
Proof. reflexivity. Qed.

Lemma fold_copy_get (src : Value) (ks : list string)
    (target : list (string * Value)) (k : string) :
  assoc_get (fold_left (copy_step src) ks target) k =
    match (if existsb (String.eqb k) ks then get src k else None) with
    | Some v => Some v
    | None => assoc_get target k
    end.
Proof.
  revert target. induction ks as [| k0 ks IH]; intros target; simpl; [reflexivity |].
  rewrite IH. unfold copy_step.
  destruct (String.eqb_spec k k0) as [-> | Hne]; simpl.
  - destruct (get src k0) as [v |] eqn:Hk0.
    + destruct (existsb (String.eqb k0) ks); [reflexivity |].
      now rewrite assoc_get_set, String.eqb_refl.
    + now destruct (existsb (String.eqb k0) ks).
  - destruct (existsb (String.eqb k) ks); [destruct (get src k) eqn:Hk |];
      try reflexivity;
      destruct (get src k0) as [v0 |]; try reflexivity;
      rewrite assoc_get_set; destruct (String.eqb_spec k0 k); congruence.
Qed.

Lemma copy_props_get (target : list (string * Value)) (src : Value) (k : string) :
  assoc_get (copy_props target src) k =
    match get src k with
    | Some v => Some v
    | None => assoc_get target k
    end.
Proof.
  rewrite copy_props_fold, fold_copy_get.
  destruct (existsb (String.eqb k) (own_keys src)) eqn:Hex; [reflexivity |].
  assert (get src k = None) as ->; [| reflexivity].
  apply assoc_get_None. intros Hin.
  assert (existsb (String.eqb k) (own_keys src) = true) as Hex'.
  { apply existsb_exists. exists k. split; [exact Hin | apply String.eqb_refl]. }
  congruence.
Qed.

Lemma spread2_get (l : loc) (a b : Value) (k : string) :
  get (spread2 l a b) k =
    match get b k with
    | Some v => Some v
    | None => get a k
    end.
Proof.
  unfold spread2, get at 1. simpl. rewrite !copy_props_get. simpl.
  destruct (get b k); [reflexivity |]. now destruct (get a k).
Qed.

Lemma copy_props_NoDup (target : list (string * Value)) (src : Value) :
  NoDup (map fst target) -> NoDup (map fst (copy_props target src)).
Proof.
  rewrite copy_props_fold. generalize (own_keys src) as ks.
  intros ks. revert target. induction ks as [| k ks IH]; intros target Hnd; simpl.
  - exact Hnd.
  - apply IH. unfold copy_step. destruct (get src k); [| exact Hnd].
    now apply assoc_set_NoDup.
Qed.

(** Copying into an object the properties it already has, with the
    values it already has, changes nothing. *)
Lemma copy_props_same (target : list (string * Value)) (src : Value) :
  (forall k v, get src k = Some v -> assoc_get target k = Some v) ->
  copy_props target src = target.
Proof.
  intros Hsame. rewrite copy_props_fold. generalize (own_keys src) as ks.
  induction ks as [| k ks IH]; simpl; [reflexivity |].
  unfold copy_step at 2. destruct (get src k) as [v |] eqn:Hk; [| exact IH].
  rewrite assoc_set_same by now apply Hsame. exact IH.
Qed.

Lemma fold_copy_append (ps qs target : list (string * Value)) (l : loc) :
  NoDup (map fst ps) ->
  (forall kv, In kv qs -> In kv ps) ->
  NoDup (map fst (target ++ qs)%list) ->
  fold_left (copy_step (VObj l ps)) (map fst qs) target = (target ++ qs)%list.
Proof.
  intros Hnd. revert target. induction qs as [| [k v] qs IH]; intros target Hin Hnd'; simpl.
  - now rewrite app_nil_r.
  - unfold copy_step at 2. unfold get. simpl.
    rewrite (assoc_get_In ps k v Hnd) by (apply Hin; now left).
    rewrite map_app in Hnd'. simpl in Hnd'.
    rewrite assoc_set_fresh.
    + rewrite IH.
      * now rewrite <- app_assoc.
      * intros kv Hkv. apply Hin. now right.
      * rewrite <- app_assoc. simpl. now rewrite map_app.
    + intros Hk. destruct (proj1 (NoDup_app _ _) Hnd') as (_ & Hdisj & _).
      apply (Hdisj k); [now apply list_elem_of_In | left].
Qed.

(** Spreading an object into an empty one copies its properties as they
    are. *)
Lemma copy_props_object (l : loc) (ps : list (string * Value)) :
  NoDup (map fst ps) -> copy_props [] (VObj l ps) = ps.
Proof.
  intros Hnd. rewrite copy_props_fold. unfold own_keys. simpl.
  now rewrite (fold_copy_append ps ps [] l).
Qed.

(** ** [setState] and [clearState] *)

Lemma setState_snapshot (fn : StateArg) (st : Store) (rt : Runtime) :
  snapshot (fst (setState fn st rt)) =
    spread2 (next_loc rt) (snapshot st) (patch_of fn (snapshot st)).
Proof. destruct fn; reflexivity. Qed.

Lemma setState_cache (fn : StateArg) (st : Store) (rt : Runtime) :
  initialStateCache (fst (setState fn st rt)) = initialStateCache st.
Proof. destruct fn; reflexivity. Qed.


Lemma clearState_snapshot (st : Store) (rt : Runtime) :
  snapshot (fst (clearState st rt)) =
    spread2 (next_loc rt) (snapshot st) (initialStateCache st).
Proof. reflexivity. Qed.

(** C6.  [setState(p)] and [setState(f)] publish, as the new snapshot, a
    new object in which every key of the patch ([p], respectively
    [f(snapshot)]) has the value the patch gives it, whatever that value
    is (an object of the patch replaces the one of the snapshot, it is
    not merged into it), and every other key has the value it had in the
    snapshot. *)
Theorem setState_shallow_merge (fn : StateArg) (st : Store) (rt : Runtime) :
  published [fn] st rt = [snapshot (fst (setState fn st rt))] /\
  (exists props, snapshot (fst (setState fn st rt)) = VObj (next_loc rt) props) /\
  forall k,
    get (snapshot (fst (setState fn st rt))) k =
      match get (patch_of fn (snapshot st)) k with
      | Some v => Some v
      | None => get (snapshot st) k
      end.
Proof.
  split; [| split].
  - simpl. now destruct (setState fn st rt).
  - rewrite setState_snapshot. unfold spread2. eauto.
  - intros k. rewrite setState_snapshot. apply spread2_get.
Qed.

(** The example of the specification: [setState({a: 1})] on the snapshot
    [{a: 0, b: 2}] gives [{a: 1, b: 2}]. *)
Example setState_example (st : Store) (rt : Runtime) :
  snapshot st = VObj 0 [("a", num 0); ("b", num 2)] ->
  own_props (snapshot (fst (setState (Patch (VObj 1 [("a", num 1)])) st rt))) =
    [("a", num 1); ("b", num 2)].
Proof. intros H. rewrite setState_snapshot, H. reflexivity. Qed.

(** C10.  A second [clearState] right after a first one publishes an
    object with the same properties, holding the same values, as the
    first one did; and the cache [initialStateCache] is left as it is by
    [next], [setState] and [clearState]. *)
Theorem clearState_idempotent (st : Store) (rt : Runtime) :
  let once := clearState st rt in
  let twice := clearState (fst once) (snd once) in
  own_props (snapshot (fst twice)) = own_props (snapshot (fst once)) /\
  initialStateCache (fst twice) = initialStateCache st /\
  (forall fn rt', initialStateCache (fst (setState fn st rt')) = initialStateCache st) /\
  (forall state, initialStateCache (next state st) = initialStateCache st).
Proof.
  cbv zeta. split; [| split; [| split]]; try reflexivity.
  - rewrite (clearState_snapshot (fst (clearState st rt))).
    rewrite clearState_snapshot. unfold spread2. simpl.
    set (once := copy_props (copy_props [] (snapshot st)) (initialStateCache st)).
    assert (NoDup (map fst once)) as Hnd.
    { apply copy_props_NoDup, copy_props_NoDup. constructor. }
    rewrite (copy_props_object _ once Hnd).
    apply copy_props_same. intros k v Hk.
    unfold once. rewrite copy_props_get. now rewrite Hk.
  - intros fn rt'. apply setState_cache.
Qed.

(** ** Induction on values and documents *)

Lemma Value_ind (P : Value -> Prop) :
  P VUndefined -> P VNull -> (forall b, P (VBool b)) -> (forall n, P (VNum n)) ->
  (forall s, P (VStr s)) -> (forall l, P (VFun l)) ->
  (forall l es, Forall P es -> P (VArr l es)) ->
  (forall l ps, Forall (fun kv => P (snd kv)) ps -> P (VObj l ps)) ->
  forall v, P v.
Proof.
  intros Hu Hn Hb Hnum Hs Hf Harr Hobj. fix IH 1.
  intros [| | b | n | s | l | l es | l ps];
    [exact Hu | exact Hn | apply Hb | apply Hnum | apply Hs | apply Hf | |].
  - apply Harr. induction es as [| e es IHes]; constructor; [apply IH | exact IHes].
  - apply Hobj. induction ps as [| kv ps IHps]; constructor; [apply IH | exact IHps].
Qed.

Lemma Json_ind (P : Json -> Prop) :
  P JNull -> (forall b, P (JBool b)) -> (forall z, P (JNum z)) -> (forall s, P (JStr s)) ->
  (forall js, Forall P js -> P (JArr js)) ->
  (forall ms, Forall (fun m => P (snd m)) ms -> P (JObj ms)) ->
  forall j, P j.
Proof.
  intros Hn Hb Hnum Hs Harr Hobj. fix IH 1.
  intros [| b | z | s | js | ms];
    [exact Hn | apply Hb | apply Hnum | apply Hs | |].
  - apply Harr. induction js as [| j js IHjs]; constructor; [apply IH | exact IHjs].
  - apply Hobj. induction ms as [| m ms IHms]; constructor; [apply IH | exact IHms].
Qed.

(** ** Well-formed values and deep equality *)

Lemma well_formed_arr (l : loc) (es : list Value) :
  well_formed (VArr l es) <-> Forall well_formed es.
Proof.
  simpl. induction es as [| e es IH]; simpl.
  - split; constructor.
  - rewrite IH. split.
    + intros [He Hes]. now constructor.
    + intros H. inversion H. tauto.
Qed.

Lemma well_formed_obj (l : loc) (ps : list (string * Value)) :
  well_formed (VObj l ps) <->
  NoDup (map fst ps) /\ Forall (fun kv => well_formed (snd kv)) ps.
Proof.
  simpl. apply and_iff_compat_l. induction ps as [| kv ps IH]; simpl.
  - split; constructor.
  - rewrite IH. split.
    + intros [He Hes]. now constructor.
    + intros H. inversion H. tauto.
Qed.


Lemma assoc_get_keys {A : Type} (ps : list (string * A)) (k : string) :
  In k (map fst ps) <-> exists v, assoc_get ps k = Some v.
Proof.
  destruct (assoc_get ps k) as [v |] eqn:Hk.
  - split; [eauto |]. intros _. apply assoc_get_Some_In in Hk.
    change k with (fst (k, v)). now apply in_map.
  - apply assoc_get_None in Hk. split; [tauto |]. intros [v Hv]. discriminate.
Qed.


(** ** [JSON.parse] builds well-formed values *)

Lemma assoc_set_Forall {A : Type} (Q : string * A -> Prop) (k : string) (v : A)
    (ps : list (string * A)) :
  Q (k, v) -> Forall Q ps -> Forall Q (assoc_set k v ps).
Proof.
  intros Hkv. induction 1 as [| [k0 v0] ps H0 Hps IH]; simpl.
  - now constructor.
  - destruct (String.eqb k0 k); constructor; assumption.
Qed.

Lemma parse_elements_well_formed (js : list Json) :
  Forall (fun j => forall l, well_formed (fst (parse j l))) js ->
  forall l, Forall well_formed (fst (parse_elements parse js l)).
Proof.
  induction 1 as [| j js Hj Hjs IH]; intros l; simpl.
  - constructor.
  - specialize (Hj l). destruct (parse j l) as [e l1].
    specialize (IH l1). destruct (parse_elements parse js l1) as [es l2].
    now constructor.
Qed.

Lemma parse_members_well_formed (ms : list (string * Json)) :
  Forall (fun m => forall l, well_formed (fst (parse (snd m) l))) ms ->
  forall acc l,
    NoDup (map fst acc) ->
    Forall (fun kv => well_formed (snd kv)) acc ->
    NoDup (map fst (fst (parse_members parse ms acc l))) /\
    Forall (fun kv => well_formed (snd kv)) (fst (parse_members parse ms acc l)).
Proof.
  induction 1 as [| m ms Hm Hms IH]; intros acc l Hnd Hwf; simpl.
  - now split.
  - specialize (Hm l). destruct (parse (snd m) l) as [v l1].
    apply IH.
    + now apply assoc_set_NoDup.
    + now apply assoc_set_Forall.
Qed.

Lemma parse_well_formed (j : Json) (l : loc) : well_formed (fst (parse j l)).
Proof.
  revert l. induction j as [| b | z | s | js IH | ms IH] using Json_ind; intros l;
    try exact I.
  - simpl. pose proof (parse_elements_well_formed js IH (l + 1)%N) as H.
    destruct (parse_elements parse js (l + 1)%N) as [es l'].
    now apply well_formed_arr.
  - simpl. pose proof (parse_members_well_formed ms IH [] (l + 1)%N) as H.
    destruct (parse_members parse ms [] (l + 1)%N) as [ps l'].
    apply well_formed_obj, H; constructor.
Qed.

(** ** Construction and [clearState] *)



(** The round trip of [cloneInitialState]: an [undefined] field comes
    back [null], a function-valued field is lost, a non-finite number
    comes back [null], and nested objects are new ones. *)
Example cloneInitialState_example :
  fst (cloneInitialState
         (VObj 0 [("a", VUndefined); ("f", VFun 1); ("n", VNum NaN);
                  ("o", VObj 2 [("x", num 1)])])
         (runtime_of [] true)) =
    Return (VObj 100 [("a", VNull); ("n", VNull); ("o", VObj 101 [("x", num 1)])]).
Proof. reflexivity. Qed.

(** ** Dispatch *)

Lemma last_char_append (s t : string) :
  t <> EmptyString -> last_char (s +:+ t) = last_char t.
Proof.
  intros Ht. induction s as [| c s IH]; [reflexivity |].
  rewrite append_cons. simpl. rewrite IH.
  destruct (s +:+ t) eqn:Hst; [| reflexivity].
  apply (f_equal String.length) in Hst. rewrite length_append in Hst.
  destruct t; [congruence | simpl in Hst; lia].
Qed.

Lemma meta_not_found_distinct (type : string) :
  meta_not_found <> action_not_found type.
Proof.
  unfold meta_not_found, action_not_found. intros [= H].
  apply (f_equal last_char) in H.
  rewrite (last_char_append type) in H by discriminate.
  vm_compute in H. discriminate.
Qed.

(** C5.  When the class has metadata and the metadata has no action of
    the dispatched name, [dispatch] (as [_dispatch]) throws before any
    implementation is called, and the store, hence its snapshot, and the
    runtime are as they were.  The error is the action-not-found error,
    whose message is the name followed by [" is not found"], for every
    name but those a plain object inherits ([toString], [constructor],
    [__proto__], ...): for these the guard [!actionMeta] of the source
    does not fire, and the call of the missing [originalFn] throws a
    [TypeError] instead. *)
Theorem dispatch_unregistered_action (cls : ClassInfo) (m : StoreMetaInfo)
    (action : Action) (st : Store) (rt : Runtime) :
  meta cls = Some m ->
  actions m !! type action = None ->
  (inherited_from_Object (type action) = false ->
   _dispatch cls action st rt = (Throw (Error (type action +:+ " is not found")), st, rt) /\
   dispatch cls (type action) (payload action) st rt =
     (Throw (Error (type action +:+ " is not found")), st, rt)) /\
  (inherited_from_Object (type action) = true ->
   _dispatch cls action st rt = (Throw call_of_undefined, st, rt) /\
   dispatch cls (type action) (payload action) st rt = (Throw call_of_undefined, st, rt) /\
   call_of_undefined <> action_not_found (type action)).
Proof.
  intros Hmeta Hnone. unfold dispatch, _dispatch. simpl.
  rewrite Hmeta, Hnone. split; intros ->; repeat split. discriminate.
Qed.

(** The name [decrease] is not registered and not inherited; the name
    [toString] is not registered either, and inherited. *)
Lemma dispatch_unregistered_action_witness :
  dispatch class_Counter "decrease" VUndefined counter_store (runtime_of ["Counter"] true) =
    (Throw (Error "decrease is not found"), counter_store, runtime_of ["Counter"] true) /\
  dispatch class_Counter "toString" VUndefined counter_store (runtime_of ["Counter"] true) =
    (Throw (TypeError "Cannot read properties of undefined (reading 'call')"),
     counter_store, runtime_of ["Counter"] true).
Proof.
  split.
  - apply (proj1 (dispatch_unregistered_action class_Counter
             {| actions := {[ "increase" := increase; "answer" := answer; "fail" := fail ]} |}
             {| type := "decrease"; payload := VUndefined |}
             counter_store (runtime_of ["Counter"] true) eq_refl eq_refl)).
    reflexivity.
  - apply (proj2 (dispatch_unregistered_action class_Counter
             {| actions := {[ "increase" := increase; "answer" := answer; "fail" := fail ]} |}
             {| type := "toString"; payload := VUndefined |}
             counter_store (runtime_of ["Counter"] true) eq_refl eq_refl)).
    reflexivity.
Defined.

(** C9.  On a store whose class has no metadata under [META_KEY],
    [_dispatch] throws the meta-not-found error, whose message starts
    with ["__THY_META__ is not found"], whatever the action: nothing is
    resolved or called, and the store and the runtime are as they were.
    The error differs from every action-not-found error. *)
Theorem dispatch_without_meta (cls : ClassInfo) (action : Action)
    (st : Store) (rt : Runtime) :
  meta cls = None ->
  _dispatch cls action st rt = (Throw meta_not_found, st, rt) /\
  message_of meta_not_found = "__THY_META__ is not found, current store has not action" /\
  String.prefix "__THY_META__ is not found" (message_of meta_not_found) = true /\
  forall type, meta_not_found <> action_not_found type.
Proof.
  intros Hmeta. unfold _dispatch. rewrite Hmeta.
  repeat split. apply meta_not_found_distinct.
Qed.

Lemma dispatch_without_meta_witness :
  _dispatch class_X {| type := "increase"; payload := VUndefined |}
    counter_store (runtime_of ["X"] true) =
    (Throw (Error "__THY_META__ is not found, current store has not action"),
     counter_store, runtime_of ["X"] true).
Proof.
  apply (dispatch_without_meta class_X {| type := "increase"; payload := VUndefined |}).
  reflexivity.
Defined.

Lemma map_op_id (o : Observable) : map_op (fun r => r) o = o.
Proof. destruct o as [vs e]. unfold map_op. simpl. now rewrite map_id. Qed.

(** C2, as amended.  When the implementation returns a plain value, the
    stream [_dispatch] returns delivers one new empty object, not the
    value, and does not complete; a promise becomes the stream of its
    settlement; a stream is passed through with its values and its end
    unchanged; and when the implementation throws, the error leaves
    [_dispatch] as a throw and no stream is returned. *)
Theorem dispatch_normalizes (cls : ClassInfo) (m : StoreMetaInfo) (actionMeta : ActionMeta)
    (action : Action) (st st1 : Store) (rt rt1 : Runtime)
    (outcome : Completion ActionResult) :
  meta cls = Some m ->
  actions m !! type action = Some actionMeta ->
  originalFn actionMeta (snapshot st) (payload action) st rt = (outcome, st1, rt1) ->
  _dispatch cls action st rt =
    match outcome with
    | Return (Plain v) =>
        (Return {| values := [VObj (next_loc rt1) []]; ending := NeverEnds |},
         st1, snd (alloc rt1))
    | Return (APromise p) => (Return (from p), st1, rt1)
    | Return (AnObservable o) => (Return o, st1, rt1)
    | Throw e => (Throw e, st1, rt1)
    end.
Proof.
  intros Hmeta Haction Hcall. unfold _dispatch. rewrite Hmeta, Haction, Hcall.
  destruct outcome as [[v | p | o] | e]; try reflexivity.
  - unfold shareReplay. now rewrite map_op_id.
  - unfold shareReplay. now rewrite map_op_id.
Qed.

Lemma dispatch_normalizes_witness :
  _dispatch class_Counter {| type := "answer"; payload := VUndefined |}
    counter_store (runtime_of ["Counter"] true) =
    (Return {| values := [VObj 100 []]; ending := NeverEnds |},
     counter_store, snd (alloc (runtime_of ["Counter"] true))).
Proof.
  apply (dispatch_normalizes class_Counter
           {| actions := {[ "increase" := increase; "answer" := answer; "fail" := fail ]} |}
           answer {| type := "answer"; payload := VUndefined |}
           counter_store counter_store
           (runtime_of ["Counter"] true) (runtime_of ["Counter"] true)
           (Return (Plain (num 42)))); reflexivity.
Defined.

(** C2, as stated, fails: the action [answer] returns the plain value
    42, and the stream delivers an empty object instead of 42; the action
    [fail] throws, and the throw leaves [_dispatch] instead of ending a
    returned stream. *)
Lemma dispatch_counterexample :
  let rt := runtime_of ["Counter"] true in
  (exists o st' rt',
     _dispatch class_Counter {| type := "answer"; payload := VUndefined |} counter_store rt
       = (Return o, st', rt') /\
     values o = [VObj 100 []] /\
     values o <> [num 42]) /\
  _dispatch class_Counter {| type := "fail"; payload := VUndefined |} counter_store rt
    = (Throw (Error "boom"), counter_store, rt).
Proof.
  split; [| reflexivity].
  eexists _, _, _. split; [reflexivity |]. split; [reflexivity | discriminate].
Qed.

(** ** [select] *)

Lemma distinct_after_adjacent (previous : Value) (vs : list Value)
    (i : nat) (x y : Value) :
  (previous :: distinct_after previous vs) !! i = Some x ->
  (previous :: distinct_after previous vs) !! S i = Some y ->
  strict_equals x y = false.
Proof.
  revert previous i. induction vs as [| v vs IH]; intros previous i; simpl.
  - destruct i; discriminate.
  - destruct (strict_equals previous v) eqn:Heq.
    + apply IH.
    + destruct i as [| i]; simpl.
      * intros [= <-] [= <-]. exact Heq.
      * apply (IH v i).
Qed.

Lemma distinct_after_sublist (previous : Value) (vs : list Value) :
  sublist (distinct_after previous vs) vs.
Proof.
  revert previous. induction vs as [| v vs IH]; intros previous; simpl.
  - constructor.
  - destruct (strict_equals previous v).
    + apply sublist_cons, IH.
    + apply sublist_skip, IH.
Qed.

Lemma list_last_cons {A : Type} (a d : A) (l : list A) :
  List.last (a :: l) d = List.last l a.
Proof.
  revert a d. induction l as [| b l IH]; intros a d; [reflexivity |].
  change (List.last (a :: b :: l) d) with (List.last (b :: l) d).
  now rewrite (IH b d), (IH b a).
Qed.

Lemma list_last_map {A B : Type} (f : A -> B) (l : list A) (d : A) :
  List.last (map f l) (f d) = f (List.last l d).
Proof.
  revert d. induction l as [| a l IH]; intros d; [reflexivity |].
  change (map f (a :: l)) with (f a :: map f l). now rewrite !list_last_cons, IH.
Qed.

(** One more value at the end of the source: it is delivered exactly
    when it is not [===] to the last value delivered. *)
Lemma distinct_after_snoc (previous v : Value) (vs : list Value) :
  distinct_after previous (vs ++ [v])%list =
    (distinct_after previous vs ++
     (if strict_equals (List.last (distinct_after previous vs) previous) v
      then [] else [v]))%list.
Proof.
  revert previous. induction vs as [| u vs IH]; intros previous.
  - simpl. now destruct (strict_equals previous v).
  - change ((u :: vs) ++ [v])%list with (u :: (vs ++ [v]))%list.
    cbn [distinct_after]. destruct (strict_equals previous u); [apply IH |].
    now rewrite IH, list_last_cons.
Qed.

(** The last value delivered is [===] to the last value of the source,
    when that one is [===] to itself. *)
Lemma distinct_after_last (previous : Value) (vs : list Value) :
  strict_equals (List.last vs previous) (List.last vs previous) = true ->
  strict_equals (List.last (distinct_after previous vs) previous)
    (List.last vs previous) = true.
Proof.
  revert previous. induction vs as [| u vs IH]; intros previous Hrefl.
  - exact Hrefl.
  - rewrite list_last_cons in Hrefl. rewrite (list_last_cons u previous vs).
    cbn [distinct_after]. destruct (strict_equals previous u) eqn:Heq.
    + destruct vs as [| w vs]; [exact Heq |].
      rewrite (list_last_cons w u vs) in *.
      rewrite <- (list_last_cons w previous vs) in *.
      now apply IH.
    + rewrite list_last_cons. now apply IH.
Qed.

Lemma select_snoc (selector : Value -> Value) (st : Store) (later : list Value)
    (s : Value) :
  select selector st (later ++ [s])%list =
    (select selector st later ++
     (if strict_equals (List.last (select selector st later) VUndefined) (selector s)
      then [] else [selector s]))%list.
Proof.
  unfold select, subscribe_state.
  change (map selector (snapshot st :: later ++ [s])%list)
    with (selector (snapshot st) :: map selector (later ++ [s])%list).
  change (map selector (snapshot st :: later))
    with (selector (snapshot st) :: map selector later).
  cbn [distinctUntilChanged]. rewrite map_app. cbn [map].
  now rewrite distinct_after_snoc, list_last_cons.
Qed.

Lemma published_snoc (calls : list StateArg) (fn : StateArg) (st : Store) (rt : Runtime) :
  published (calls ++ [fn])%list st rt =
    (published calls st rt ++
     [snapshot (fst (setState fn (fst (setStates calls st rt))
                       (snd (setStates calls st rt))))])%list.
Proof.
  revert st rt. induction calls as [| fn0 calls IH]; intros st rt; simpl.
  - now destruct (setState fn st rt).
  - destruct (setState fn0 st rt) as [st1 rt1]. simpl. now rewrite IH.
Qed.

Lemma published_last (calls : list StateArg) (st : Store) (rt : Runtime) :
  List.last (published calls st rt) (snapshot st) = snapshot (fst (setStates calls st rt)).
Proof.
  revert st rt. induction calls as [| fn calls IH]; intros st rt; simpl; [reflexivity |].
  destruct (setState fn st rt) as [st1 rt1]. rewrite list_last_cons. apply IH.
Qed.

(** C7, as amended.  [select(projection)] delivers the projection of the
    current snapshot at once; afterwards, for every snapshot published,
    it delivers the projected value exactly when that value is not [===]
    to the last one delivered: primitives are compared by value, objects
    and arrays by identity, so that a projection that is another object
    is delivered whatever its content.  A [setState] that does not touch
    the field [k] causes no emission of [select(s => s.k)], at any point
    of a sequence of calls, unless the value of the field is [NaN]. *)
Theorem select_distinct_until_changed (selector : Value -> Value) (st : Store)
    (later : list Value) :
  (exists rest, select selector st later = selector (snapshot st) :: rest) /\
  sublist (select selector st later) (map selector (snapshot st :: later)) /\
  (forall i x y,
     select selector st later !! i = Some x ->
     select selector st later !! S i = Some y ->
     strict_equals x y = false) /\
  (forall s,
     select selector st [s] =
       if strict_equals (selector (snapshot st)) (selector s)
       then [selector (snapshot st)]
       else [selector (snapshot st); selector s]) /\
  (forall fn rt k,
     get (patch_of fn (snapshot st)) k = None ->
     strict_equals (read k (snapshot st)) (read k (snapshot st)) = true ->
     select (read k) st (published [fn] st rt) = [read k (snapshot st)]) /\
  select selector st [] = [selector (snapshot st)] /\
  (forall s,
     select selector st (later ++ [s])%list =
       (select selector st later ++
        (if strict_equals (List.last (select selector st later) VUndefined) (selector s)
         then [] else [selector s]))%list) /\
  (forall s l ps l' ps',
     List.last (select selector st later) VUndefined = VObj l ps ->
     selector s = VObj l' ps' ->
     l <> l' ->
     select selector st (later ++ [s])%list
       = (select selector st later ++ [selector s])%list) /\
  (forall calls fn rt k,
     let st1 := fst (setStates calls st rt) in
     get (patch_of fn (snapshot st1)) k = None ->
     strict_equals (read k (snapshot st1)) (read k (snapshot st1)) = true ->
     select (read k) st (published (calls ++ [fn])%list st rt) =
       select (read k) st (published calls st rt)).
Proof.
  split; [unfold select, subscribe_state; simpl; eauto |].
  split; [unfold select, subscribe_state; simpl;
          apply sublist_skip, distinct_after_sublist |].
  split; [intros i x y; unfold select, subscribe_state; simpl;
          apply distinct_after_adjacent |].
  split; [intros s; unfold select, subscribe_state; simpl;
          now destruct (strict_equals (selector (snapshot st)) (selector s)) |].
  split.
  { intros fn rt k Hk Hrefl. unfold select, subscribe_state. simpl.
    destruct (setState fn st rt) as [st' rt'] eqn:Hset. simpl.
    assert (read k (snapshot st') = read k (snapshot st)) as ->.
    { unfold read. change st' with (fst (st', rt')). rewrite <- Hset.
      rewrite setState_snapshot, spread2_get. now rewrite Hk. }
    now rewrite Hrefl. }
  split; [reflexivity |].
  split; [intros s; apply select_snoc |].
  split.
  { intros s l ps l' ps' Hlast Hs Hne. rewrite select_snoc, Hlast, Hs. simpl.
    now rewrite (proj2 (N.eqb_neq l l') Hne). }
  intros calls fn rt k st1 Hk Hrefl.
  rewrite published_snoc, select_snoc.
  set (s' := snapshot (fst (setState fn (fst (setStates calls st rt))
                              (snd (setStates calls st rt))))).
  assert (read k s' = read k (snapshot st1)) as ->.
  { unfold read, s'. rewrite setState_snapshot, spread2_get. fold st1. now rewrite Hk. }
  assert (strict_equals (List.last (select (read k) st (published calls st rt)) VUndefined)
            (read k (snapshot st1)) = true) as ->.
  { unfold select, subscribe_state.
    change (map (read k) (snapshot st :: published calls st rt))
      with (read k (snapshot st) :: map (read k) (published calls st rt)).
    cbn [distinctUntilChanged]. rewrite list_last_cons.
    unfold st1. rewrite <- published_last.
    rewrite <- (list_last_map (read k) (published calls st rt) (snapshot st)).
    apply distinct_after_last.
    rewrite (list_last_map (read k)), published_last. exact Hrefl. }
  apply app_nil_r.
Qed.

(** [setState({b: 1})] on [{a: 0, b: 0}] causes no emission of
    [select(s => s.a)], and neither does it after [setState({a: 1})],
    which causes one. *)
Lemma select_distinct_until_changed_witness :
  let st := next (VObj 0 [("a", num 0); ("b", num 0)]) counter_store in
  select (read "a") st
    (published [Patch (VObj 1 [("b", num 1)])] st (runtime_of [] true)) = [num 0] /\
  select (read "a") st
    (published [Patch (VObj 1 [("a", num 1)]); Patch (VObj 2 [("b", num 1)])] st
       (runtime_of [] true)) = [num 0; num 1].
Proof.
  split.
  - apply (proj1 (proj2 (proj2 (proj2 (proj2
             (select_distinct_until_changed (read "a")
                (next (VObj 0 [("a", num 0); ("b", num 0)]) counter_store) [])))))
             (Patch (VObj 1 [("b", num 1)])) (runtime_of [] true) "a");
      reflexivity.
  - etransitivity; [| reflexivity].
    exact (proj2 (proj2 (proj2 (proj2 (proj2 (proj2 (proj2 (proj2
             (select_distinct_until_changed (read "a")
                (next (VObj 0 [("a", num 0); ("b", num 0)]) counter_store) []))))))))
             [Patch (VObj 1 [("a", num 1)])] (Patch (VObj 2 [("b", num 1)]))
             (runtime_of [] true) "a" eq_refl eq_refl).
Defined.

(** C7, as stated, fails: the field [a] holds an object, [setState] puts
    another object with the same content there, and [select(s => s.a)]
    delivers both, although they are equal by value. *)
Lemma select_counterexample :
  let st := next (VObj 0 [("a", VObj 1 [("x", num 1)])]) counter_store in
  let later := published [Patch (VObj 2 [("a", VObj 3 [("x", num 1)])])] st
                 (runtime_of [] true) in
  select (read "a") st later = [VObj 1 [("x", num 1)]; VObj 3 [("x", num 1)]] /\
  deep_equal (VObj 1 [("x", num 1)]) (VObj 3 [("x", num 1)]) = true.
Proof. split; reflexivity. Qed.

(** ** The cap of [instanceMaxCount = 0] *)

Lemma exhausted_size (name : string) (rt : Runtime) (m : Z) :
  (forall i, 1 <= i <= m -> suffixed name i ∈ instances rt) ->
  (Z.to_nat m <= size (instances rt))%nat.
Proof.
  intros Hall.
  assert (Inj eq eq (suffixed name)) as Hinj by (intros i j; apply suffixed_inj).
  assert (NoDup (suffixed name <$> seqZ 1 m)) as Hnd.
  { apply (NoDup_fmap_2 _), NoDup_seqZ. }
  rewrite <- (length_seqZ 1 m), <- (length_fmap (suffixed name)).
  rewrite <- (size_list_to_set (C := gset string)) by exact Hnd.
  apply subseteq_size. intros id Hid.
  apply elem_of_list_to_set, list_elem_of_fmap in Hid as (i & -> & Hi).
  apply elem_of_seqZ in Hi. apply Hall. lia.
Qed.

(** X8.  With [instanceMaxCount = 0] the ids are not exhausted as long
    as fewer than 2^53 - 2 stores are live: the construction is given an
    id in dev mode too. *)
Lemma createStoreInstanceId_unlimited (o : StoreOptions) (name : string) (rt : Runtime) :
  instanceMaxCount o = Some 0 ->
  (size (instances rt) < Z.to_nat (MAX_SAFE_INTEGER - 1))%nat ->
  exists id, createStoreInstanceId (Some o) name rt = Return id.
Proof.
  intros Ho Hsize. unfold createStoreInstanceId.
  assert (getInstanceMaxCount (Some o) = MAX_SAFE_INTEGER) as ->.
  { simpl. now rewrite Ho. }
  destruct (factory_get rt name); simpl; [| eauto].
  destruct (for_break 1 (MAX_SAFE_INTEGER - 1)
              (fun i => negb (factory_get rt (suffixed name i)))) as [i |] eqn:Hscan.
  - apply for_break_Some in Hscan as (Hi & _ & _). simpl.
    destruct (Z.eqb_spec i 0); [lia |]. simpl. eauto.
  - exfalso. rewrite for_break_None in Hscan.
    assert (Z.to_nat (MAX_SAFE_INTEGER - 1) <= size (instances rt))%nat; [| lia].
    apply (exhausted_size name). intros i Hi. apply factory_get_true.
    specialize (Hscan i Hi). now destruct (factory_get rt (suffixed name i)).
Qed.

(** ** The replacer and the metadata *)

(** [serialize] has the replacer of [cloneInitialState] built in: calling
    the replacer first changes nothing. *)
Lemma serialize_replacer (key : string) (value : Value) :
  serialize (replacer key value) = serialize value.
Proof. now destruct value. Qed.

(** After [findAndCreateStoreMetadata] the target has metadata of its
    own, the one returned; metadata it had of its own is kept. *)
Lemma findAndCreateStoreMetadata_attaches (target : option StoreMetaInfo) :
  snd (findAndCreateStoreMetadata target) = Some (fst (findAndCreateStoreMetadata target)) /\
  (forall m, target = Some m -> fst (findAndCreateStoreMetadata target) = m).
Proof.
  destruct target as [m |]; simpl; split; try reflexivity.
  - now intros m' [= ->].
  - discriminate.
Qed.

(** ** Histories of the registry *)

(** Two stores of type [X] are constructed in an empty registry and get
    the ids [X] and [X-1]; the first is destroyed; the next store gets
    the bare name [X] while [X-1] is live. *)
Example bare_name_after_destroy :
  exists a rt1 b rt2 c rt3,
    new_Store class_X (VObj 0 []) (max_count 3) (runtime_of [] true) = (Return a, rt1) /\
    new_Store class_X (VObj 0 []) (max_count 3) rt1 = (Return b, rt2) /\
    new_Store class_X (VObj 0 []) (max_count 3) (ngOnDestroy a rt2) = (Return c, rt3) /\
    getStoreInstanceId a = "X" /\
    getStoreInstanceId b = "X-1" /\
    getStoreInstanceId c = "X" /\
    factory_get (ngOnDestroy a rt2) "X-1" = true.
Proof.
  eexists _, _, _, _, _, _. repeat split; reflexivity.
Qed.

(** Outside dev mode, with [instanceMaxCount = 3]: the first three
    stores get [X], [X-1], [X-2], the fourth the new id [X-0], and the
    fifth [X-0] again, which the fourth holds. *)
Example five_stores_in_production :
  exists a rt1 b rt2 c rt3 d rt4 e rt5,
    new_Store class_X (VObj 0 []) (max_count 3) (runtime_of [] false) = (Return a, rt1) /\
    new_Store class_X (VObj 0 []) (max_count 3) rt1 = (Return b, rt2) /\
    new_Store class_X (VObj 0 []) (max_count 3) rt2 = (Return c, rt3) /\
    new_Store class_X (VObj 0 []) (max_count 3) rt3 = (Return d, rt4) /\
    new_Store class_X (VObj 0 []) (max_count 3) rt4 = (Return e, rt5) /\
    map getStoreInstanceId [a; b; c; d; e] = ["X"; "X-1"; "X-2"; "X-0"; "X-0"] /\
    factory_get rt3 "X-0" = false /\
    factory_get rt4 "X-0" = true.
Proof.
  eexists _, _, _, _, _, _, _, _, _, _. repeat split; reflexivity.
Qed.

(** * Further properties *)

(** ** The registry *)

Lemma createStoreInstanceId_Return (options : option StoreOptions)
    (name : string) (rt : Runtime) (id : string) :
  createStoreInstanceId options name rt = Return id ->
  id ∉ instances rt \/
  (devMode rt = false /\ id = suffixed name 0 /\ name ∈ instances rt /\
   forall i, 1 <= i <= getInstanceMaxCount options - 1 ->
             suffixed name i ∈ instances rt).
Proof.
  unfold createStoreInstanceId.
  destruct (factory_get rt name) eqn:Hname; simpl.
  - destruct (for_break 1 (getInstanceMaxCount options - 1)
                (fun i => negb (factory_get rt (suffixed name i)))) as [i |] eqn:Hscan; simpl.
    + apply for_break_Some in Hscan as (Hi & Hfree & _).
      destruct (Z.eqb_spec i 0); [lia |]. simpl. intros [= <-]. left.
      apply factory_get_false. now destruct (factory_get rt (suffixed name i)).
    + destruct (devMode rt); simpl; [discriminate |]. intros [= <-]. right.
      repeat split; [now apply factory_get_true |].
      intros i Hi. rewrite for_break_None in Hscan. specialize (Hscan i Hi).
      apply factory_get_true. now destruct (factory_get rt (suffixed name i)).
  - intros [= <-]. left. now apply factory_get_false.
Qed.

Lemma createStoreInstanceId_Throw (options : option StoreOptions)
    (name : string) (rt : Runtime) (e : JsError) :
  createStoreInstanceId options name rt = Throw e ->
  devMode rt = true /\ name ∈ instances rt /\
  (forall i, 1 <= i <= getInstanceMaxCount options - 1 ->
             suffixed name i ∈ instances rt) /\
  e = Error (too_many_message name (getInstanceMaxCount options)).
Proof.
  unfold createStoreInstanceId.
  destruct (factory_get rt name) eqn:Hname; simpl; [| discriminate].
  destruct (for_break 1 (getInstanceMaxCount options - 1)
              (fun i => negb (factory_get rt (suffixed name i)))) as [i |] eqn:Hscan; simpl.
  - apply for_break_Some in Hscan as (Hi & _ & _).
    destruct (Z.eqb_spec i 0); [lia |]. discriminate.
  - destruct (devMode rt); simpl; [| discriminate]. intros [= <-].
    repeat split; [now apply factory_get_true |].
    intros i Hi. rewrite for_break_None in Hscan. specialize (Hscan i Hi).
    apply factory_get_true. now destruct (factory_get rt (suffixed name i)).
Qed.

(** X1.  The id [createStoreInstanceId] returns is held by no live
    store, with one exception: outside dev mode, when the bare name and
    every suffix of [1..cap-1] are held, it is the id of suffix 0.  In
    dev mode the id returned is always a free one. *)
Theorem createStoreInstanceId_free_id (options : option StoreOptions)
    (name : string) (rt : Runtime) (id : string) :
  createStoreInstanceId options name rt = Return id ->
  (devMode rt = true -> id ∉ instances rt) /\
  (id ∉ instances rt \/
   (devMode rt = false /\ id = suffixed name 0 /\ name ∈ instances rt /\
    forall i, 1 <= i <= getInstanceMaxCount options - 1 ->
              suffixed name i ∈ instances rt)).
Proof.
  intros H. apply createStoreInstanceId_Return in H as [Hfree | (Hmode & Hrest)].
  - split; [intros _; exact Hfree | now left].
  - split; [congruence | right; now split].
Qed.

Lemma createStoreInstanceId_free_id_witness :
  "X-2" ∉ instances (runtime_of ["X"; "X-1"] true).
Proof.
  apply (createStoreInstanceId_free_id (max_count 3) "X"
           (runtime_of ["X"; "X-1"] true) "X-2"); reflexivity.
Defined.

(** X2.  [createStoreInstanceId] throws exactly when the runtime is in
    dev mode, the bare name is held and so is every suffix of
    [1..cap-1]; the error then carries the message of the source, with
    the name and the cap in it. *)
Theorem createStoreInstanceId_throws_iff (options : option StoreOptions)
    (name : string) (rt : Runtime) (e : JsError) :
  createStoreInstanceId options name rt = Throw e <->
  devMode rt = true /\ name ∈ instances rt /\
  (forall i, 1 <= i <= getInstanceMaxCount options - 1 ->
             suffixed name i ∈ instances rt) /\
  e = Error (too_many_message name (getInstanceMaxCount options)).
Proof.
  split; [apply createStoreInstanceId_Throw |].
  intros (Hmode & Hname & Hall & ->).
  rewrite createStoreInstanceId_exhausted by assumption. now rewrite Hmode.
Qed.

(** With the cap 1 the loop has no suffix to try: a second store of the
    name is refused in dev mode. *)
Lemma createStoreInstanceId_throws_iff_witness :
  createStoreInstanceId (max_count 1) "X" (runtime_of ["X"] true) =
    Throw (Error "store 'X' created more than 1, please check it.").
Proof.
  apply (proj2 (createStoreInstanceId_throws_iff (max_count 1) "X"
                  (runtime_of ["X"] true) _)).
  split; [reflexivity |]. split; [by_evaluation |]. split; [| reflexivity].
  intros i Hi. simpl in Hi. lia.
Defined.

Lemma parse_loc_le_elements (js : list Json) :
  Forall (fun j => forall l, (l <= snd (parse j l))%N) js ->
  forall l, (l <= snd (parse_elements parse js l))%N.
Proof.
  induction 1 as [| j js Hj Hjs IH]; intros l; simpl; [lia |].
  specialize (Hj l). destruct (parse j l) as [e l1].
  specialize (IH l1). destruct (parse_elements parse js l1) as [es l2].
  simpl in *. lia.
Qed.

Lemma parse_loc_le_members (ms : list (string * Json)) :
  Forall (fun m => forall l, (l <= snd (parse (snd m) l))%N) ms ->
  forall acc l, (l <= snd (parse_members parse ms acc l))%N.
Proof.
  induction 1 as [| m ms Hm Hms IH]; intros acc l; simpl; [lia |].
  specialize (Hm l). destruct (parse (snd m) l) as [v l1].
  specialize (IH (assoc_set (fst m) v acc) l1). simpl in *. lia.
Qed.

Lemma parse_loc_le (j : Json) (l : loc) : (l <= snd (parse j l))%N.
Proof.
  revert l. induction j as [| b | z | s | js IH | ms IH] using Json_ind; intros l;
    simpl; try lia.
  - pose proof (parse_loc_le_elements js IH (l + 1)%N) as H.
    destruct (parse_elements parse js (l + 1)%N) as [es l']. simpl in *. lia.
  - pose proof (parse_loc_le_members ms IH [] (l + 1)%N) as H.
    destruct (parse_members parse ms [] (l + 1)%N) as [ps l']. simpl in *. lia.
Qed.

Lemma new_Store_Return (cls : ClassInfo) (initialState : Value)
    (options : option StoreOptions) (rt rt' : Runtime) (st : Store) :
  new_Store cls initialState options rt = (Return st, rt') ->
  setName cls options = Return (getName st) /\
  createStoreInstanceId options (getName st) rt = Return (getStoreInstanceId st) /\
  instances rt' = {[ getStoreInstanceId st ]} ∪ instances rt /\
  devMode rt' = devMode rt /\
  (next_loc rt <= next_loc rt')%N /\
  snapshot st = initialState /\
  storeOptions st = options.
Proof.
  unfold new_Store, cloneInitialState, JSON_parse.
  destruct (setName cls options) as [name | e]; [| discriminate].
  destruct (createStoreInstanceId options name rt) as [id | e] eqn:Hid; [| discriminate].
  destruct (JSON_stringify initialState) as [j |]; [| discriminate].
  pose proof (parse_loc_le j (next_loc rt)) as Hle.
  destruct (parse j (next_loc rt)) as [v l]. intros [= <- <-]. simpl in *.
  repeat split; try reflexivity; assumption.
Qed.

Lemma serialize_None (v : Value) :
  serialize v = None <-> exists l, v = VFun l.
Proof.
  destruct v as [| | b | [z | | |] | s | l | l es | l ps]; simpl;
    try (split; [discriminate | intros [l' [=]]]).
  split; eauto.
Qed.

Lemma new_Store_Throw (cls : ClassInfo) (initialState : Value)
    (options : option StoreOptions) (rt rt' : Runtime) (e : JsError) :
  new_Store cls initialState options rt = (Throw e, rt') ->
  rt' = rt /\
  (setName cls options = Throw e \/
   (exists name, setName cls options = Return name /\
                 createStoreInstanceId options name rt = Throw e) \/
   (exists l, initialState = VFun l /\
              e = SyntaxError not_valid_JSON)).
Proof.
  unfold new_Store, cloneInitialState, JSON_parse, JSON_stringify.
  destruct (setName cls options) as [name | e0].
  - destruct (createStoreInstanceId options name rt) as [id | e1] eqn:Hid.
    + destruct (serialize initialState) as [j |] eqn:Hj.
      * destruct (parse j (next_loc rt)); discriminate.
      * intros [= <- <-]. split; [reflexivity |]. right. right.
        apply serialize_None in Hj as [l ->]. eauto.
    + intros [= <- <-]. split; [reflexivity |]. right. left. eauto.
  - intros [= <- <-]. split; [reflexivity |]. now left.
Qed.

(** X5.  Destroying a store right after its construction takes its id
    out of the registry; in dev mode, where the id was free before, the
    registry is back to what it was before the construction. *)
Theorem ngOnDestroy_after_new_Store (cls : ClassInfo) (initialState : Value)
    (options : option StoreOptions) (rt rt' : Runtime) (st : Store) :
  new_Store cls initialState options rt = (Return st, rt') ->
  instances (ngOnDestroy st rt') = instances rt ∖ {[ getStoreInstanceId st ]} /\
  (devMode rt = true -> instances (ngOnDestroy st rt') = instances rt).
Proof.
  intros H. apply new_Store_Return in H as (_ & Hid & Hreg & _).
  unfold ngOnDestroy, factory_unregister. simpl. rewrite Hreg.
  split.
  - apply set_eq. intros id.
    rewrite !elem_of_difference, elem_of_union, elem_of_singleton. tauto.
  - intros Hmode.
    apply createStoreInstanceId_Return in Hid as [Hfree | (Hprod & _)]; [| congruence].
    apply set_eq. intros id.
    rewrite elem_of_difference, elem_of_union, elem_of_singleton.
    split; [tauto |]. intros Hlive. split; [now right |]. congruence.
Qed.

Lemma ngOnDestroy_after_new_Store_witness :
  exists st rt',
    new_Store class_X (VObj 0 []) None (runtime_of ["Y"] true) = (Return st, rt') /\
    instances (ngOnDestroy st rt') = instances (runtime_of ["Y"] true).
Proof.
  eexists _, _. split; [reflexivity |].
  refine (proj2 (ngOnDestroy_after_new_Store class_X (VObj 0 []) None
                   (runtime_of ["Y"] true) _ _ eq_refl) eq_refl).
Defined.

Lemma step_keeps_ids_distinct (op : Op) (live : list Store) (rt : Runtime) :
  devMode rt = true ->
  NoDup (getStoreInstanceId <$> live) ->
  (forall id, id ∈ getStoreInstanceId <$> live -> id ∈ instances rt) ->
  devMode (snd (step (live, rt) op)) = true /\
  NoDup (getStoreInstanceId <$> fst (step (live, rt) op)) /\
  (forall id, id ∈ getStoreInstanceId <$> fst (step (live, rt) op) ->
              id ∈ instances (snd (step (live, rt) op))).
Proof.
  intros Hmode Hnd Hreg. destruct op as [cls initialState options | i]; simpl.
  - destruct (new_Store cls initialState options rt) as [[st | e] rt'] eqn:Hnew; simpl.
    + apply new_Store_Return in Hnew as (_ & Hid & Hreg' & Hmode' & _).
      apply createStoreInstanceId_Return in Hid as [Hfree | (Hprod & _)]; [| congruence].
      split; [congruence |]. split.
      * apply NoDup_cons. split; [| exact Hnd]. intros Hin. apply Hfree, Hreg, Hin.
      * intros id Hin. rewrite Hreg'. apply elem_of_cons in Hin as [-> | Hin].
        -- apply elem_of_union_l, elem_of_singleton. reflexivity.
        -- apply elem_of_union_r, Hreg, Hin.
    + apply new_Store_Throw in Hnew as [-> _]. auto.
  - destruct (live !! i) as [st |] eqn:Hi; simpl; [| auto].
    split; [exact Hmode |]. rewrite list_fmap_delete. split.
    + apply (sublist_NoDup _ _ Hnd), sublist_delete.
    + intros id Hin. apply elem_of_difference. split.
      * apply Hreg. eapply elem_of_sublist; [exact Hin | apply sublist_delete].
      * rewrite elem_of_singleton. intros ->.
        apply list_elem_of_lookup in Hin as [j Hj].
        rewrite list_lookup_delete in Hj.
        assert ((getStoreInstanceId <$> live) !! i = Some (getStoreInstanceId st)) as Hi'.
        { rewrite list_lookup_fmap, Hi. reflexivity. }
        pose proof (NoDup_lookup _ _ _ _ Hnd Hj Hi') as Heq.
        destruct (decide (j < i)%nat); lia.
Qed.

(** X6.  In dev mode, along any history of constructions and
    destructions, the live stores have ids that differ from one another
    and are all in the registry. *)
Theorem live_ids_distinct (ops : list Op) (live : list Store) (rt : Runtime) :
  devMode rt = true ->
  NoDup (getStoreInstanceId <$> live) ->
  (forall id, id ∈ getStoreInstanceId <$> live -> id ∈ instances rt) ->
  NoDup (getStoreInstanceId <$> fst (run ops (live, rt))) /\
  (forall id, id ∈ getStoreInstanceId <$> fst (run ops (live, rt)) ->
              id ∈ instances (snd (run ops (live, rt)))).
Proof.
  revert live rt. induction ops as [| op ops IH]; intros live rt Hmode Hnd Hreg.
  - now split.
  - unfold run. simpl.
    destruct (step_keeps_ids_distinct op live rt Hmode Hnd Hreg) as (Hmode' & Hnd' & Hreg').
    destruct (step (live, rt) op) as [live' rt']. now apply IH.
Qed.

(** Three stores of a type are constructed, the second is destroyed, a
    fourth is constructed: the ids are [X-1], [X-2], [X]. *)
Lemma live_ids_distinct_witness :
  NoDup (getStoreInstanceId <$>
           fst (run [Construct class_X (VObj 0 []) None;
                     Construct class_X (VObj 0 []) None;
                     Construct class_X (VObj 0 []) None;
                     Destroy 1;
                     Construct class_X (VObj 0 []) None]
                  ([], runtime_of [] true))).
Proof.
  apply (live_ids_distinct _ [] (runtime_of [] true)).
  - reflexivity.
  - constructor.
  - intros id Hin. inversion Hin.
Defined.

(** X7.  When [instanceMaxCount] is an integer, or is not configured,
    the cap is at least 1, and every integer that is not positive, the
    negative ones included, stands for [MAX_SAFE_INTEGER]. *)
Theorem getInstanceMaxCount_positive (options : option StoreOptions) :
  1 <= getInstanceMaxCount options /\
  (forall o n, options = Some o -> instanceMaxCount o = Some n -> n <= 0 ->
               getInstanceMaxCount options = MAX_SAFE_INTEGER).
Proof.
  split.
  - destruct options as [[nm [n |]] |]; simpl; try lia.
    destruct (Z.leb_spec n 0); [unfold MAX_SAFE_INTEGER |]; lia.
  - intros o n -> Hn Hle. simpl. rewrite Hn.
    destruct (Z.leb_spec n 0); [reflexivity | lia].
Qed.

Lemma getInstanceMaxCount_positive_witness :
  getInstanceMaxCount (max_count (-5)) = MAX_SAFE_INTEGER.
Proof.
  apply (proj2 (getInstanceMaxCount_positive (max_count (-5)))
           {| opt_name := None; instanceMaxCount := Some (-5) |} (-5));
    [reflexivity | reflexivity | lia].
Defined.

(** Two stores are live and [instanceMaxCount] is 0. *)
Lemma createStoreInstanceId_unlimited_witness :
  exists id,
    createStoreInstanceId (max_count 0) "X" (runtime_of ["X"; "X-1"] true) = Return id.
Proof.
  apply (createStoreInstanceId_unlimited
           {| opt_name := None; instanceMaxCount := Some 0 |} "X"
           (runtime_of ["X"; "X-1"] true)); [reflexivity |].
  assert (size (instances (runtime_of ["X"; "X-1"] true)) = 2%nat) as ->
    by (vm_compute; reflexivity).
  unfold MAX_SAFE_INTEGER. lia.
Defined.

(** ** The JSON round trip of [cloneInitialState] *)



Lemma assoc_set_locs (R : loc -> Prop) (k : string) (v : Value)
    (ps : list (string * Value)) :
  Forall R (locs v) -> Forall R (props_locs ps) ->
  Forall R (props_locs (assoc_set k v ps)).
Proof.
  intros Hv. induction ps as [| [k0 v0] ps IH]; unfold props_locs; simpl; intros Hps.
  - rewrite app_nil_r. exact Hv.
  - apply Forall_app in Hps as [H0 Hps]. destruct (String.eqb k0 k); simpl.
    + apply Forall_app. now split.
    + apply Forall_app. split; [exact H0 | now apply IH].
Qed.

Lemma parse_elements_loc_le (js : list Json) (l : loc) :
  (l <= snd (parse_elements parse js l))%N.
Proof.
  apply parse_loc_le_elements, Forall_forall. intros j _ l'. apply parse_loc_le.
Qed.

Lemma parse_members_loc_le (ms : list (string * Json)) (acc : list (string * Value))
    (l : loc) :
  (l <= snd (parse_members parse ms acc l))%N.
Proof.
  apply parse_loc_le_members, Forall_forall. intros m _ l'. apply parse_loc_le.
Qed.

Lemma between_weaken (lo lo' hi hi' : loc) (xs : list loc) :
  (lo' <= lo)%N -> (hi <= hi')%N ->
  Forall (between lo hi) xs -> Forall (between lo' hi') xs.
Proof.
  intros Hlo Hhi H. eapply Forall_impl; [exact H |].
  unfold between. intros x Hx. lia.
Qed.

Lemma parse_elements_locs (js : list Json) :
  Forall (fun j => forall l, Forall (between l (snd (parse j l)))
                               (locs (fst (parse j l)))) js ->
  forall l, Forall (between l (snd (parse_elements parse js l)))
              (flat_map locs (fst (parse_elements parse js l))).
Proof.
  induction 1 as [| j js Hj Hjs IH]; intros l; simpl; [constructor |].
  specialize (Hj l). pose proof (parse_loc_le j l) as Hle.
  destruct (parse j l) as [e l1].
  specialize (IH l1). pose proof (parse_elements_loc_le js l1) as Hle'.
  destruct (parse_elements parse js l1) as [es l2]. simpl in *.
  apply Forall_app. split.
  - apply (between_weaken l l l1 l2); [lia | lia | exact Hj].
  - apply (between_weaken l1 l l2 l2); [lia | lia | exact IH].
Qed.

Lemma parse_members_locs (ms : list (string * Json)) :
  Forall (fun m => forall l, Forall (between l (snd (parse (snd m) l)))
                               (locs (fst (parse (snd m) l)))) ms ->
  forall acc lo l,
    (lo <= l)%N ->
    Forall (between lo l) (props_locs acc) ->
    Forall (between lo (snd (parse_members parse ms acc l)))
      (props_locs (fst (parse_members parse ms acc l))).
Proof.
  induction 1 as [| m ms Hm Hms IH]; intros acc lo l Hlo Hacc; simpl; [exact Hacc |].
  specialize (Hm l). pose proof (parse_loc_le (snd m) l) as Hle.
  destruct (parse (snd m) l) as [v l1]. simpl in *.
  apply IH; [lia |]. apply assoc_set_locs.
  - apply (between_weaken l lo l1 l1); [lia | lia | exact Hm].
  - apply (between_weaken lo lo l l1); [lia | lia | exact Hacc].
Qed.

Lemma parse_locs (j : Json) (l : loc) :
  Forall (between l (snd (parse j l))) (locs (fst (parse j l))).
Proof.
  revert l. induction j as [| b | z | s | js IH | ms IH] using Json_ind; intros l;
    try constructor.
  - simpl. pose proof (parse_elements_locs js IH (l + 1)%N) as H.
    pose proof (parse_elements_loc_le js (l + 1)%N) as Hle.
    destruct (parse_elements parse js (l + 1)%N) as [es l']. simpl in *.
    constructor; [unfold between; lia |].
    apply (between_weaken (l + 1)%N l l' l'); [lia | lia | exact H].
  - simpl. pose proof (parse_members_locs ms IH [] (l + 1)%N (l + 1)%N) as H.
    pose proof (parse_members_loc_le ms [] (l + 1)%N) as Hle.
    destruct (parse_members parse ms [] (l + 1)%N) as [ps l']. simpl in *.
    constructor; [unfold between; lia |].
    apply (between_weaken (l + 1)%N l l' l'); [lia | lia |].
    apply H; [lia | constructor].
Qed.

(** X11.  The value [cloneInitialState] returns is made of new arrays
    and objects only: each identity in it was allocated by the call,
    between the next free location before and after it.  So no array or
    object of the initial state, allocated earlier, is part of the
    cache; and the registry is not touched. *)
Theorem cloneInitialState_deep_copy (initialState cache : Value) (rt rt' : Runtime) :
  cloneInitialState initialState rt = (Return cache, rt') ->
  (next_loc rt <= next_loc rt')%N /\
  Forall (fun x => (next_loc rt <= x < next_loc rt')%N) (locs cache) /\
  (Forall (fun x => (x < next_loc rt)%N) (locs initialState) ->
   forall x, x ∈ locs cache -> x ∉ locs initialState) /\
  instances rt' = instances rt.
Proof.
  unfold cloneInitialState, JSON_parse, JSON_stringify.
  destruct (serialize initialState) as [j |]; [| discriminate].
  pose proof (parse_locs j (next_loc rt)) as Hlocs.
  pose proof (parse_loc_le j (next_loc rt)) as Hle.
  destruct (parse j (next_loc rt)) as [v l]. intros [= <- <-]. simpl in *.
  split; [exact Hle |]. split; [exact Hlocs |]. split; [| reflexivity].
  intros Hold x Hx Hx'.
  rewrite Forall_forall in Hlocs, Hold.
  specialize (Hlocs x Hx). specialize (Hold x Hx'). unfold between in Hlocs. lia.
Qed.

Lemma cloneInitialState_deep_copy_witness :
  exists cache rt',
    cloneInitialState (VObj 0 [("o", VObj 1 [("x", num 1)])]) (runtime_of [] true)
      = (Return cache, rt') /\
    Forall (fun x => (100 <= x < next_loc rt')%N) (locs cache).
Proof.
  eexists _, _. split; [reflexivity |].
  refine (proj1 (proj2 (cloneInitialState_deep_copy
                          (VObj 0 [("o", VObj 1 [("x", num 1)])]) _
                          (runtime_of [] true) _ eq_refl))).
Defined.


Lemma serialize_arr (l : loc) (es : list Value) :
  serialize (VArr l es) = Some (JArr (json_elements es)).
Proof. reflexivity. Qed.

Lemma json_members_keys (ps : list (string * Value)) (k : string) :
  In k (map fst (json_members ps)) -> In k (map fst ps).
Proof.
  induction ps as [| [k0 v0] ps IH]; simpl; [tauto |].
  unfold json_members. simpl. fold (json_members ps).
  destruct (serialize v0); simpl; tauto.
Qed.

Lemma json_members_NoDup (ps : list (string * Value)) :
  NoDup (map fst ps) -> NoDup (map fst (json_members ps)).
Proof.
  induction ps as [| [k0 v0] ps IH]; simpl; intros Hnd; [constructor |].
  apply NoDup_cons in Hnd as [Hk0 Hnd].
  unfold json_members. simpl. fold (json_members ps).
  destruct (serialize v0); simpl; [| now apply IH].
  apply NoDup_cons. split; [| now apply IH].
  intros Hin. apply Hk0, list_elem_of_In, json_members_keys. now apply list_elem_of_In.
Qed.

(** The member written for a key is the serialization of the value of
    the key; no member is written when there is none. *)
Lemma json_members_get (ps : list (string * Value)) (k : string) :
  NoDup (map fst ps) ->
  assoc_get (json_members ps) k =
    match assoc_get ps k with
    | Some v => serialize v
    | None => None
    end.
Proof.
  induction ps as [| [k0 v0] ps IH]; simpl; intros Hnd; [reflexivity |].
  apply NoDup_cons in Hnd as [Hk0 Hnd].
  unfold json_members. simpl. fold (json_members ps).
  destruct (String.eqb_spec k0 k) as [-> | Hne].
  - destruct (serialize v0) as [j |]; simpl.
    + now rewrite String.eqb_refl.
    + apply assoc_get_None. intros Hin.
      apply Hk0, list_elem_of_In. now apply json_members_keys.
  - destruct (serialize v0) as [j |]; simpl.
    + destruct (String.eqb_spec k0 k); [contradiction | now apply IH].
    + now apply IH.
Qed.

Lemma parse_members_get_None (ms : list (string * Json)) (acc : list (string * Value))
    (l : loc) (k : string) :
  assoc_get ms k = None ->
  assoc_get (fst (parse_members parse ms acc l)) k = assoc_get acc k.
Proof.
  revert acc l. induction ms as [| [k0 j0] ms IH]; intros acc l; simpl; [reflexivity |].
  destruct (String.eqb_spec k0 k) as [-> | Hne]; [discriminate |].
  intros Hk. destruct (parse j0 l) as [v l1]. rewrite IH by exact Hk.
  rewrite assoc_get_set. destruct (String.eqb_spec k0 k); [contradiction | reflexivity].
Qed.

Lemma parse_members_get_Some (ms : list (string * Json)) (acc : list (string * Value))
    (l : loc) (k : string) (j : Json) :
  NoDup (map fst ms) ->
  assoc_get ms k = Some j ->
  exists l', assoc_get (fst (parse_members parse ms acc l)) k = Some (fst (parse j l')).
Proof.
  revert acc l. induction ms as [| [k0 j0] ms IH]; intros acc l Hnd; simpl; [discriminate |].
  simpl in Hnd. apply NoDup_cons in Hnd as [Hk0 Hnd].
  destruct (String.eqb_spec k0 k) as [-> | Hne].
  - intros [= ->]. exists l. destruct (parse j l) as [v l1] eqn:Hp. simpl.
    rewrite parse_members_get_None.
    + now rewrite assoc_get_set, String.eqb_refl.
    + apply assoc_get_None. intros Hin. now apply Hk0, list_elem_of_In.
  - intros Hk. destruct (parse j0 l) as [v l1]. now apply IH.
Qed.

Lemma same_keys_length {A B : Type} (ps : list (string * A)) (qs : list (string * B)) :
  NoDup (map fst ps) -> NoDup (map fst qs) ->
  (forall k, In k (map fst ps) <-> In k (map fst qs)) ->
  length ps = length qs.
Proof.
  intros Hps Hqs Hsame.
  rewrite <- (length_map fst ps), <- (length_map fst qs).
  apply Permutation_length, NoDup_Permutation; [exact Hps | exact Hqs |].
  intros k. rewrite !list_elem_of_In. apply Hsame.
Qed.

Lemma json_clean_arr (l : loc) (es : list Value) :
  json_clean (VArr l es) <-> Forall json_clean es.
Proof.
  simpl. induction es as [| e es IH]; simpl.
  - split; constructor.
  - rewrite IH. split.
    + intros [He Hes]. now constructor.
    + intros H. inversion H. tauto.
Qed.

Lemma json_clean_obj (l : loc) (ps : list (string * Value)) :
  json_clean (VObj l ps) <->
  NoDup (map fst ps) /\ Forall (fun kv => json_clean (snd kv)) ps.
Proof.
  simpl. apply and_iff_compat_l. induction ps as [| kv ps IH]; simpl.
  - split; constructor.
  - rewrite IH. split.
    + intros [He Hes]. now constructor.
    + intros H. inversion H. tauto.
Qed.

(** A value JSON keeps is serialized, and every reading of the document
    is deep-equal to it. *)
Lemma serialize_clean (v : Value) :
  json_clean v ->
  exists j, serialize v = Some j /\ forall l, deep_equal v (fst (parse j l)) = true.
Proof.
  induction v as [| | b | n | s | l | l es IH | l ps IH] using Value_ind; intros Hclean.
  - destruct Hclean.
  - exists JNull. split; reflexivity.
  - exists (JBool b). split; [reflexivity |]. intros l0. simpl. now destruct b.
  - destruct n as [z | | |]; try destruct Hclean.
    exists (JNum z). split; [reflexivity |]. intros l0. simpl. apply Z.eqb_refl.
  - exists (JStr s). split; [reflexivity |]. intros l0. simpl. apply String.eqb_refl.
  - destruct Hclean.
  - apply json_clean_arr in Hclean. exists (JArr (json_elements es)).
    split; [reflexivity |].
    assert (forall l1, all2 deep_equal es
                         (fst (parse_elements parse (json_elements es) l1)) = true)
      as Hall.
    { induction es as [| e es IHes]; intros l1; simpl; [reflexivity |].
      inversion IH as [| ? ? He Hes]; inversion Hclean as [| ? ? Hce Hces]; subst.
      destruct (He Hce) as (j & Hj & Heq). rewrite Hj. simpl.
      specialize (Heq l1). destruct (parse j l1) as [e' l2].
      specialize (IHes Hes Hces l2).
      destruct (parse_elements parse (json_elements es) l2) as [es' l3].
      simpl in *. now rewrite Heq, IHes. }
    intros l0. simpl. specialize (Hall (l0 + 1)%N).
    destruct (parse_elements parse (json_elements es) (l0 + 1)%N) as [es' l'].
    exact Hall.
  - apply json_clean_obj in Hclean as [Hnd Hclean].
    exists (JObj (json_members ps)). split; [reflexivity |]. intros l0. simpl.
    pose proof (parse_members_well_formed (json_members ps)) as Hwf.
    destruct (Hwf (proj2 (Forall_forall _ _) (fun m _ l' => parse_well_formed (snd m) l'))
                [] (l0 + 1)%N) as [Hnd' _]; [constructor | constructor |].
    assert (forall k v, assoc_get ps k = Some v ->
              exists j l', serialize v = Some j /\
                assoc_get (fst (parse_members parse (json_members ps) [] (l0 + 1)%N)) k
                  = Some (fst (parse j l')) /\
                deep_equal v (fst (parse j l')) = true) as Hget.
    { intros k v Hk. rewrite Forall_forall in IH, Hclean.
      assert ((k, v) ∈ ps) as Hin by (apply list_elem_of_In; now apply assoc_get_Some_In).
      destruct (IH (k, v) Hin (Hclean (k, v) Hin)) as (j & Hj & Heq).
      destruct (parse_members_get_Some (json_members ps) [] (l0 + 1)%N k j) as [l' Hl'].
      - now apply json_members_NoDup.
      - rewrite json_members_get by exact Hnd. now rewrite Hk.
      - exists j, l'. auto. }
    destruct (parse_members parse (json_members ps) [] (l0 + 1)%N) as [ps' l1] eqn:Hps'.
    simpl in *. apply andb_true_iff. split.
    + apply Nat.eqb_eq, same_keys_length; [exact Hnd | exact Hnd' |].
      intros k. rewrite !assoc_get_keys. split.
      * intros [v Hv]. destruct (Hget k v Hv) as (j & l' & _ & Hk' & _). eauto.
      * intros [v' Hv']. destruct (assoc_get ps k) as [v |] eqn:Hk; [eauto |].
        exfalso.
        assert (assoc_get ps' k = None) as Hnone; [| congruence].
        change ps' with (fst (ps', l1)). rewrite <- Hps'.
        rewrite parse_members_get_None; [reflexivity |].
        rewrite json_members_get by exact Hnd. now rewrite Hk.
    + apply forallb_forall. intros [k v] Hin. simpl.
      destruct (Hget k v (assoc_get_In ps k v Hnd Hin)) as (j & l' & _ & Hk' & Heq).
      now rewrite Hk'.
Qed.

(** X12.  For an initial state made of [null], booleans, finite numbers,
    strings, arrays and objects, [cloneInitialState] returns a value
    deep-equal to it: the round trip loses nothing. *)
Theorem cloneInitialState_round_trip (initialState : Value) (rt : Runtime) :
  json_clean initialState ->
  exists cache rt',
    cloneInitialState initialState rt = (Return cache, rt') /\
    deep_equal initialState cache = true.
Proof.
  intros Hclean. destruct (serialize_clean initialState Hclean) as (j & Hj & Heq).
  unfold cloneInitialState, JSON_parse, JSON_stringify. rewrite Hj.
  specialize (Heq (next_loc rt)). destruct (parse j (next_loc rt)) as [v l].
  eexists _, _. split; [reflexivity | exact Heq].
Qed.

Lemma cloneInitialState_round_trip_witness :
  exists cache rt',
    cloneInitialState
      (VObj 0 [("count", num 0); ("tags", VArr 1 [VStr "a"; VNull]);
               ("user", VObj 2 [("ok", VBool true)])])
      (runtime_of [] true) = (Return cache, rt') /\
    deep_equal
      (VObj 0 [("count", num 0); ("tags", VArr 1 [VStr "a"; VNull]);
               ("user", VObj 2 [("ok", VBool true)])]) cache = true.
Proof.
  apply cloneInitialState_round_trip.
  repeat (first [apply NoDup_cons; split; [by_evaluation |] | apply NoDup_nil_2
                | split | exact I]).
Defined.

(** ** More on [setState], [clearState] and [select] *)






(** X14.  Two calls of [setState] one after the other give every key
    the value a single call with the merged patch [{...p, ...q}] gives
    it: the later patch wins, then the earlier one, then the snapshot. *)
Theorem setState_twice (p q : Value) (st : Store) (rt : Runtime) (l : loc) (k : string) :
  get (snapshot (fst (setStates [Patch p; Patch q] st rt))) k =
    get (snapshot (fst (setState (Patch (spread2 l p q)) st rt))) k /\
  get (snapshot (fst (setStates [Patch p; Patch q] st rt))) k =
    match get q k with
    | Some v => Some v
    | None => match get p k with
              | Some v => Some v
              | None => get (snapshot st) k
              end
    end.
Proof.
  assert (get (snapshot (fst (setStates [Patch p; Patch q] st rt))) k =
            match get q k with
            | Some v => Some v
            | None => match get p k with
                      | Some v => Some v
                      | None => get (snapshot st) k
                      end
            end) as H.
  { change (setStates [Patch p; Patch q] st rt)
      with (setState (Patch q) (fst (setState (Patch p) st rt))
              (snd (setState (Patch p) st rt))).
    rewrite !setState_snapshot, !spread2_get. reflexivity. }
  split; [| exact H]. rewrite H, setState_snapshot, !spread2_get.
  unfold patch_of. rewrite spread2_get. now destruct (get q k).
Qed.

(** X15.  A sequence of [setState] calls changes the snapshot and
    nothing else of the store: id, name, options and the cache are as
    they were; in the runtime it leaves the registry and dev mode alone
    and allocates one object per call. *)
Theorem setStates_frame (calls : list StateArg) (st : Store) (rt : Runtime) :
  let st' := fst (setStates calls st rt) in
  let rt' := snd (setStates calls st rt) in
  getStoreInstanceId st' = getStoreInstanceId st /\
  getName st' = getName st /\
  storeOptions st' = storeOptions st /\
  initialStateCache st' = initialStateCache st /\
  instances rt' = instances rt /\
  devMode rt' = devMode rt /\
  next_loc rt' = (next_loc rt + N.of_nat (length calls))%N.
Proof.
  revert st rt. induction calls as [| fn calls IH]; intros st rt; simpl.
  - repeat split. lia.
  - destruct (setState fn st rt) as [st1 rt1] eqn:Hset.
    assert (getStoreInstanceId st1 = getStoreInstanceId st /\
            getName st1 = getName st /\ storeOptions st1 = storeOptions st /\
            initialStateCache st1 = initialStateCache st /\
            instances rt1 = instances rt /\ devMode rt1 = devMode rt /\
            next_loc rt1 = (next_loc rt + 1)%N) as (H1 & H2 & H3 & H4 & H5 & H6 & H7).
    { destruct fn; injection Hset as <- <-; repeat split. }
    destruct (IH st1 rt1) as (I1 & I2 & I3 & I4 & I5 & I6 & I7).
    repeat split; try congruence. rewrite I7, H7. lia.
Qed.

(** X16.  A patch without own properties ([undefined], [null], a
    number, a boolean, a function, an empty object) changes no property:
    [setState] publishes a new object with the properties of the
    snapshot, in the same order. *)
Theorem setState_no_properties (fn : StateArg) (st : Store) (rt : Runtime)
    (l : loc) (ps : list (string * Value)) :
  snapshot st = VObj l ps ->
  NoDup (map fst ps) ->
  own_props (patch_of fn (snapshot st)) = [] ->
  snapshot (fst (setState fn st rt)) = VObj (next_loc rt) ps.
Proof.
  intros Hsnap Hnd Hpatch. rewrite setState_snapshot. unfold spread2.
  rewrite Hsnap in *. rewrite (copy_props_object l ps Hnd).
  unfold copy_props, own_keys. now rewrite Hpatch.
Qed.

Lemma setState_no_properties_witness :
  snapshot (fst (setState (Patch VNull)
                   (next (VObj 0 [("a", num 0); ("b", num 2)]) counter_store)
                   (runtime_of [] true))) =
    VObj 100 [("a", num 0); ("b", num 2)].
Proof.
  apply (setState_no_properties (Patch VNull)
           (next (VObj 0 [("a", num 0); ("b", num 2)]) counter_store)
           (runtime_of [] true) 0%N); [reflexivity | | reflexivity].
  repeat (first [apply NoDup_cons; split; [by_evaluation |] | apply NoDup_nil_2]).
Defined.

Lemma distinct_after_published (calls : list StateArg) (st : Store) (rt : Runtime)
    (previous : Value) :
  allocated rt previous ->
  distinct_after previous (published calls st rt) = published calls st rt.
Proof.
  revert st rt previous. induction calls as [| fn calls IH]; intros st rt previous Hprev;
    [reflexivity |].
  cbn [published]. destruct (setState fn st rt) as [st1 rt1] eqn:Hset.
  cbn [distinct_after].
  assert (snapshot st1 = spread2 (next_loc rt) (snapshot st) (patch_of fn (snapshot st)))
    as Hsnap.
  { change st1 with (fst (st1, rt1)). rewrite <- Hset. apply setState_snapshot. }
  assert (next_loc rt1 = (next_loc rt + 1)%N) as Hnext.
  { destruct fn; injection Hset as <- <-; reflexivity. }
  assert (strict_equals previous (snapshot st1) = false) as ->.
  { rewrite Hsnap. unfold spread2.
    destruct previous as [| | b | n | s | l | l es | l ps]; try reflexivity;
      try (now destruct n).
    simpl in *. apply N.eqb_neq. lia. }
  f_equal. apply IH. rewrite Hsnap. unfold spread2, allocated. rewrite Hnext. lia.
Qed.

(** X17.  [select(s => s)] delivers every snapshot [setState]
    publishes, also when the patch changes nothing: each published
    snapshot is a new object, and it is not [===] to the one before. *)
Theorem select_whole_state (calls : list StateArg) (st : Store) (rt : Runtime) :
  allocated rt (snapshot st) ->
  select (fun s => s) st (published calls st rt) =
    snapshot st :: published calls st rt.
Proof.
  intros Hsnap. unfold select, subscribe_state. rewrite map_id. simpl.
  f_equal. now apply distinct_after_published.
Qed.

Lemma select_whole_state_witness :
  length (select (fun s => s) counter_store
            (published [Patch VNull; Patch VNull] counter_store (runtime_of [] true)))
    = 3%nat.
Proof.
  rewrite (select_whole_state [Patch VNull; Patch VNull] counter_store (runtime_of [] true)).
  - reflexivity.
  - simpl. lia.
Defined.

(** ** [utils.ts] *)



Section KeyByProperties.
Context (toPropertyKey : Value -> string).
Context (other_property : Value -> string -> option Value).








End KeyByProperties.




(** X22.  [coerceArray] always returns an array; it returns an array it
    is given as it is, the same object, allocating nothing, and wraps
    any other value in a new one-element array.  Hence it is idempotent:
    coercing its result returns that result itself. *)
Theorem coerceArray_idempotent (value : Value) (rt rt1 : Runtime) :
  (exists l es, fst (coerceArray value rt) = VArr l es) /\
  coerceArray (fst (coerceArray value rt)) rt1 = (fst (coerceArray value rt), rt1) /\
  (forall l es, value = VArr l es -> coerceArray value rt = (value, rt)) /\
  ((forall l es, value <> VArr l es) ->
   coerceArray value rt = (VArr (next_loc rt) [value], snd (alloc rt))).
Proof.
  split; [| split; [| split]].
  - destruct value; simpl; eauto.
  - now destruct value.
  - now intros l es ->.
  - intros Hnot. destruct value; try reflexivity. now destruct (Hnot l elems).
Qed.

Lemma coerceArray_idempotent_witness :
  coerceArray (VStr "a") (runtime_of [] true) =
    (VArr 100 [VStr "a"], snd (alloc (runtime_of [] true))).
Proof.
  apply (proj2 (proj2 (proj2 (coerceArray_idempotent (VStr "a") (runtime_of [] true)
                                (runtime_of [] true))))).
  discriminate.
Defined.
